(** * Identity linking of the DayZ server backend

    A shallow embedding of the two Passport verify callbacks (Steam and
    Discord) and of the session (de)serialisation callbacks registered by
    [setupPassportStrategies], over an explicit model of the [User]
    collection.  The collection is a list of documents in natural
    (insertion) order; every database round trip may raise, which is
    modelled by a schedule of faults consumed one entry per round trip. *)

From stdpp Require Import base numbers strings option list.

Open Scope Z_scope.

(** ** Data model *)

(** ObjectIds are generated by the driver; only freshness matters. *)
Definition ObjectId := nat.

(** A JavaScript [Date], as milliseconds since the epoch. *)
Definition Date := Z.

(** Modelled from the spec: the Mongoose schema of [./models/User], which is
    required by the server but is not part of the sources.  For the keys
    [steamId] and [discordId], which no callback ever sets to [null], [None]
    is an absent path; for the other paths it is an absent or [null] one.
    The spec fixes the keys
    ([steamId], [discordId]), the denormalised profile fields per provider,
    the boolean [isFullyAuthenticated], and the timestamps [lastLogin] and
    [createdAt]. *)
Record User := mkUser {
  _id : ObjectId;
  steamId : option string;
  steamName : option string;
  steamAvatar : option string;
  steamProfileUrl : option string;
  discordId : option string;
  discordName : option string;
  discordAvatar : option string;
  discordEmail : option string;
  isFullyAuthenticated : bool;
  lastLogin : option Date;
  createdAt : Date
}.

Global Instance User_eq_dec : EqDecision User.
Proof. solve_decision. Defined.

(** The profile handed over by passport-steam: [profile.id],
    [profile.displayName], the [value]s of [profile.photos] and
    [profile._json.profileurl]. *)
Module Steam.
Record profile := mkProfile {
  id : string;
  displayName : string;
  photos : list string;
  _json_profileurl : string
}.
End Steam.

(** The profile handed over by passport-discord. *)
Module Discord.
Record profile := mkProfile {
  id : string;
  username : string;
  discriminator : string;
  avatar : option string;
  email : option string
}.
End Discord.

(** ** JavaScript expressions used by the callbacks *)

(** [s || null] on a possibly undefined string: the empty string is falsy. *)
Definition or_null (s : option string) : option string :=
  match s with
  | Some "" => None
  | Some v => Some v
  | None => None
  end.

(** [profile.photos[0]?.value || null] *)
Definition first_photo (ph : list string) : option string :=
  or_null (head ph).

(** [`${profile.username}#${profile.discriminator}`] *)
Definition discord_tag (p : Discord.profile) : string :=
  Discord.username p +:+ "#" +:+ Discord.discriminator p.

(** Truthiness of a string-valued path: absent, [null] and [""] are falsy. *)
Definition truthy (s : option string) : bool :=
  match s with
  | Some "" => false
  | Some _ => true
  | None => false
  end.

(** ** Field assignments ([user.f = v]) *)

Definition set_steamId (v : option string) (u : User) : User :=
  mkUser (_id u) v (steamName u) (steamAvatar u) (steamProfileUrl u)
         (discordId u) (discordName u) (discordAvatar u) (discordEmail u)
         (isFullyAuthenticated u) (lastLogin u) (createdAt u).

Definition set_steamProfileUrl (v : option string) (u : User) : User :=
  mkUser (_id u) (steamId u) (steamName u) (steamAvatar u) v
         (discordId u) (discordName u) (discordAvatar u) (discordEmail u)
         (isFullyAuthenticated u) (lastLogin u) (createdAt u).

Definition set_steamName (v : option string) (u : User) : User :=
  mkUser (_id u) (steamId u) v (steamAvatar u) (steamProfileUrl u)
         (discordId u) (discordName u) (discordAvatar u) (discordEmail u)
         (isFullyAuthenticated u) (lastLogin u) (createdAt u).

Definition set_steamAvatar (v : option string) (u : User) : User :=
  mkUser (_id u) (steamId u) (steamName u) v (steamProfileUrl u)
         (discordId u) (discordName u) (discordAvatar u) (discordEmail u)
         (isFullyAuthenticated u) (lastLogin u) (createdAt u).

Definition set_discordId (v : option string) (u : User) : User :=
  mkUser (_id u) (steamId u) (steamName u) (steamAvatar u) (steamProfileUrl u)
         v (discordName u) (discordAvatar u) (discordEmail u)
         (isFullyAuthenticated u) (lastLogin u) (createdAt u).

Definition set_discordName (v : option string) (u : User) : User :=
  mkUser (_id u) (steamId u) (steamName u) (steamAvatar u) (steamProfileUrl u)
         (discordId u) v (discordAvatar u) (discordEmail u)
         (isFullyAuthenticated u) (lastLogin u) (createdAt u).

Definition set_discordAvatar (v : option string) (u : User) : User :=
  mkUser (_id u) (steamId u) (steamName u) (steamAvatar u) (steamProfileUrl u)
         (discordId u) (discordName u) v (discordEmail u)
         (isFullyAuthenticated u) (lastLogin u) (createdAt u).

Definition set_discordEmail (v : option string) (u : User) : User :=
  mkUser (_id u) (steamId u) (steamName u) (steamAvatar u) (steamProfileUrl u)
         (discordId u) (discordName u) (discordAvatar u) v
         (isFullyAuthenticated u) (lastLogin u) (createdAt u).

Definition set_isFullyAuthenticated (v : bool) (u : User) : User :=
  mkUser (_id u) (steamId u) (steamName u) (steamAvatar u) (steamProfileUrl u)
         (discordId u) (discordName u) (discordAvatar u) (discordEmail u)
         v (lastLogin u) (createdAt u).

Definition set_lastLogin (v : Date) (u : User) : User :=
  mkUser (_id u) (steamId u) (steamName u) (steamAvatar u) (steamProfileUrl u)
         (discordId u) (discordName u) (discordAvatar u) (discordEmail u)
         (isFullyAuthenticated u) (Some v) (createdAt u).

(** ** The persistence layer *)

(** What a rejected driver promise carries. *)
Inductive Error := MongoError (msg : string).

Global Instance Error_eq_dec : EqDecision Error.
Proof. solve_decision. Defined.

(** The process and its database: the collection in natural order, the
    ObjectId generator, and the faults still to come, one entry per round
    trip ([Some e]: that round trip rejects with [e]). *)
Record World := mkWorld {
  docs : list User;
  next_oid : ObjectId;
  faults : list (option Error)
}.

Inductive result (A : Type) :=
  | Ok (a : A)
  | Throw (e : Error).
Arguments Ok {A} a.
Arguments Throw {A} e.

(** An [async] computation: it reads and writes the world and either
    resolves or rejects. *)
Definition Async (A : Type) : Type := World → result A * World.

Global Instance Async_ret : MRet Async := λ A a w, (Ok a, w).

Global Instance Async_bind : MBind Async := λ A B f m w,
  match m w with
  | (Ok a, w') => f a w'
  | (Throw e, w') => (Throw e, w')
  end.

(** [try { body } catch (error) { handler }] where the handler cannot throw. *)
Definition try_catch {A} (body : Async A) (handler : Error → A) : World → A * World :=
  λ w,
    match body w with
    | (Ok a, w') => (a, w')
    | (Throw e, w') => (handler e, w')
    end.

(** One round trip to the database: it consumes the next scheduled fault. *)
Definition after_trip (w : World) : World :=
  mkWorld (docs w) (next_oid w) (tail (faults w)).

Definition round_trip : Async unit := λ w,
  match head (faults w) with
  | Some (Some e) => (Throw e, after_trip w)
  | _ => (Ok tt, after_trip w)
  end.

Definition get_docs : Async (list User) := λ w, (Ok (docs w), w).

Definition put_docs (ds : list User) : Async unit := λ w,
  (Ok tt, mkWorld ds (next_oid w) (faults w)).

(** A hydrated Mongoose document: its paths and whether it was ever saved. *)
Record Document := mkDocument {
  doc : User;
  isNew : bool
}.

Definition assign (f : User → User) (d : Document) : Document :=
  mkDocument (f (doc d)) (isNew d).

Definition hydrate (u : User) : Document := mkDocument u false.

(** [User.findOne(q)]: the first match in natural order, or [null]. *)
Definition findOne (q : User → Prop) `{∀ u, Decision (q u)} : Async (option Document) :=
  _ ← round_trip;
  ds ← get_docs;
  mret (hydrate ∘ snd <$> list_find q ds).

(** The first document of a descending sort on [createdAt]: a greatest
    [createdAt], the earliest such document in natural order. *)
Fixpoint latest (l : list User) : option User :=
  match l with
  | [] => None
  | u :: l' =>
      match latest l' with
      | None => Some u
      | Some v => if createdAt u <? createdAt v then Some v else Some u
      end
  end.

(** [User.findOne(q).sort({ createdAt: -1 })] *)
Definition findOne_sort_createdAt_desc (q : User → Prop) `{∀ u, Decision (q u)}
  : Async (option Document) :=
  _ ← round_trip;
  ds ← get_docs;
  mret (hydrate <$> latest (filter q ds)).

(** [updateOne({ _id })]: the first document with that [_id] is rewritten. *)
Fixpoint updateOne (u : User) (ds : list User) : list User :=
  match ds with
  | [] => []
  | d :: ds' => if decide (_id d = _id u) then u :: ds' else d :: updateOne u ds'
  end.

(** What [doc.save()] writes: an insert for a new document, an update by
    [_id] for a hydrated one. *)
Definition saved (d : Document) (ds : list User) : list User :=
  if isNew d then ds ++ [doc d] else updateOne (doc d) ds.

(** [doc.save()] *)
Definition save (d : Document) : Async Document :=
  _ ← round_trip;
  ds ← get_docs;
  _ ← put_docs (saved d ds);
  mret (mkDocument (doc d) false).

(** [User.findById(id)] *)
Definition findById (i : ObjectId) : Async (option Document) :=
  findOne (λ u, _id u = i).

(** Modelled from the spec: the defaults of the [User] schema, which is not
    part of the sources.  A fresh document gets a fresh [_id], has
    [isFullyAuthenticated] false, and has [createdAt] set at creation;
    every other path is absent until assigned. *)
Definition blank_User (i : ObjectId) (now : Date) : User :=
  mkUser i None None None None None None None None false None now.

(** [new User(init)]: no round trip; the driver hands out the next ObjectId. *)
Definition new_User (init : User → User) (now : Date) : Async Document := λ w,
  (Ok (mkDocument (init (blank_User (next_oid w) now)) true),
   mkWorld (docs w) (S (next_oid w)) (faults w)).

(** ** The verify callbacks of [setupPassportStrategies] *)

(** The call [done(err, user)] a callback ends with. *)
Inductive DoneCall := Done (err : option Error) (user : option User).

(** The merge-candidate query of the Discord callback:
    [{ $and: [{ steamId: { $exists: true } }, { discordId: { $exists: false } }] }] *)
Definition steam_only (u : User) : Prop :=
  is_Some (steamId u) ∧ discordId u = None.

Global Instance steam_only_dec u : Decision (steam_only u).
Proof. unfold steam_only. apply _. Defined.

(** The Steam strategy's verify callback; [now] is what [new Date()] reads. *)
Definition steam_verify (profile : Steam.profile) (now : Date) : World → DoneCall * World :=
  try_catch
    (let sid := Steam.id profile in
     found ← findOne (λ u, steamId u = Some sid);
     user ← match found with
            | None =>
                user ← new_User
                  (set_steamId (Some sid)
                   ∘ set_steamName (Some (Steam.displayName profile))
                   ∘ set_steamAvatar (first_photo (Steam.photos profile))
                   ∘ set_steamProfileUrl (Some (Steam._json_profileurl profile))) now;
                save user
            | Some user =>
                let user := assign (set_steamName (Some (Steam.displayName profile))) user in
                let user := assign (set_steamAvatar (first_photo (Steam.photos profile))) user in
                let user := assign (set_lastLogin now) user in
                save user
            end;
     mret (Done None (Some (doc user))))
    (λ error, Done (Some error) None).

(** The Discord strategy's verify callback. *)
Definition discord_verify (profile : Discord.profile) (now : Date) : World → DoneCall * World :=
  try_catch
    (let did := Discord.id profile in
     found ← findOne (λ u, discordId u = Some did);
     user ← match found with
            | None =>
                candidate ← findOne_sort_createdAt_desc steam_only;
                match candidate with
                | Some user =>
                    let user := assign (set_discordId (Some did)) user in
                    let user := assign (set_discordName (Some (discord_tag profile))) user in
                    let user := assign (set_discordAvatar (Discord.avatar profile)) user in
                    let user := assign (set_discordEmail (Discord.email profile)) user in
                    let user := assign (set_isFullyAuthenticated true) user in
                    save user
                | None =>
                    user ← new_User
                      (set_discordId (Some did)
                       ∘ set_discordName (Some (discord_tag profile))
                       ∘ set_discordAvatar (Discord.avatar profile)
                       ∘ set_discordEmail (Discord.email profile)) now;
                    save user
                end
            | Some user =>
                let user := assign (set_discordName (Some (discord_tag profile))) user in
                let user := assign (set_discordAvatar (Discord.avatar profile)) user in
                let user := assign (set_discordEmail (Discord.email profile)) user in
                let user := assign (set_lastLogin now) user in
                let user :=
                  if truthy (steamId (doc user)) && truthy (discordId (doc user))
                  then assign (set_isFullyAuthenticated true) user
                  else user in
                save user
            end;
     mret (Done None (Some (doc user))))
    (λ error, Done (Some error) None).

(** [passport.serializeUser] *)
Definition serializeUser (user : User) : ObjectId := _id user.

(** [passport.deserializeUser]; here [done] may be called with a [null] user. *)
Definition deserializeUser (i : ObjectId) : World → DoneCall * World :=
  try_catch
    (user ← findById i;
     mret (Done None (doc <$> user)))
    (λ error, Done (Some error) None).

(** ** Sequences of authentications *)

Inductive Op :=
  | SteamLogin (profile : Steam.profile) (now : Date)
  | DiscordLogin (profile : Discord.profile) (now : Date).

Definition step (w : World) (o : Op) : World :=
  match o with
  | SteamLogin p now => snd (steam_verify p now w)
  | DiscordLogin p now => snd (discord_verify p now w)
  end.

Definition run (ops : list Op) (w : World) : World := foldl step w ops.

(** The empty store, with any schedule of faults. *)
Definition init (fs : list (option Error)) : World := mkWorld [] 0%nat fs.

(** The next [n] round trips succeed. *)
Definition quiet (n : nat) (w : World) : Prop :=
  Forall (λ f, f = None) (take n (faults w)).

Global Instance quiet_dec n w : Decision (quiet n w).
Proof. unfold quiet. apply _. Defined.

(** The [n]-th round trip from now is the first to fail, with [e]. *)
Definition fails_at (n : nat) (e : Error) (w : World) : Prop :=
  quiet n w ∧ faults w !! n = Some (Some e).

(** What the Steam callback inserts for an unseen id. *)
Definition steam_created (p : Steam.profile) (now : Date) (i : ObjectId) : User :=
  mkUser i (Some (Steam.id p)) (Some (Steam.displayName p))
         (first_photo (Steam.photos p)) (Some (Steam._json_profileurl p))
         None None None None false None now.

(** What the Steam callback writes back for a known id. *)
Definition steam_refreshed (p : Steam.profile) (now : Date) (u : User) : User :=
  set_lastLogin now
    (set_steamAvatar (first_photo (Steam.photos p))
       (set_steamName (Some (Steam.displayName p)) u)).

(** What the Discord callback writes back on the merge candidate. *)
Definition discord_linked (p : Discord.profile) (u : User) : User :=
  set_isFullyAuthenticated true
    (set_discordEmail (Discord.email p)
       (set_discordAvatar (Discord.avatar p)
          (set_discordName (Some (discord_tag p))
             (set_discordId (Some (Discord.id p)) u)))).

(** What the Discord callback inserts when there is no merge candidate. *)
Definition discord_created (p : Discord.profile) (now : Date) (i : ObjectId) : User :=
  mkUser i None None None None
         (Some (Discord.id p)) (Some (discord_tag p)) (Discord.avatar p) (Discord.email p)
         false None now.

(** What the Discord callback writes back for a known id. *)
Definition discord_refreshed (p : Discord.profile) (now : Date) (u : User) : User :=
  let u' := set_lastLogin now
              (set_discordEmail (Discord.email p)
                 (set_discordAvatar (Discord.avatar p)
                    (set_discordName (Some (discord_tag p)) u))) in
  if truthy (steamId u') && truthy (discordId u')
  then set_isFullyAuthenticated true u' else u'.


(** ** Well-formed stores and the flag invariant *)

(** [_id] is unique in the collection and every stored [_id] was handed
    out by the ObjectId generator. *)
Definition wf (w : World) : Prop :=
  NoDup (_id <$> docs w) ∧ Forall (λ u, (_id u < next_oid w)%nat) (docs w).

Global Instance wf_dec w : Decision (wf w).
Proof. unfold wf. apply _. Defined.

(** A key is set when its path holds a value. *)
Definition is_set (k : option string) : bool :=
  match k with Some _ => true | None => false end.

(** [isFullyAuthenticated] says exactly that both keys are set. *)
Definition flag_ok (u : User) : Prop :=
  isFullyAuthenticated u = is_set (steamId u) && is_set (discordId u).

(** How a stored document [u] may differ from what a callback writes back
    as [u']: [_id], [steamId] and [createdAt] stay; either [discordId]
    stays, and the flag stays or is raised on a document with both keys,
    or a Steam-only document gets its [discordId] and the flag. *)
Definition touched (u u' : User) : Prop :=
  _id u' = _id u ∧ steamId u' = steamId u ∧ createdAt u' = createdAt u ∧
  ((discordId u' = discordId u ∧
    (isFullyAuthenticated u' = isFullyAuthenticated u ∨
     (isFullyAuthenticated u' = true ∧
      is_set (steamId u) = true ∧ is_set (discordId u) = true)))
   ∨ (steam_only u ∧ is_set (discordId u') = true ∧ isFullyAuthenticated u' = true)).

(** The shapes one callback can give the collection and the generator. *)
Inductive evolves (w : World) : World → Prop :=
  | evolves_none w' :
      docs w' = docs w → (next_oid w ≤ next_oid w')%nat → evolves w w'
  | evolves_insert u w' :
      _id u = next_oid w → flag_ok u → steamId u = None ∨ discordId u = None →
      docs w' = docs w ++ [u] → next_oid w' = S (next_oid w) → evolves w w'
  | evolves_update i u u' w' :
      docs w !! i = Some u → touched u u' →
      docs w' = <[i:=u']> (docs w) → next_oid w' = next_oid w → evolves w w'.

(** ** Session principal and the [/api/user] route *)

(** What [passport.session()], the session strategy of the passport
    package, makes of the serialised id [su] found in the session: nothing
    without one; otherwise it calls the registered [deserializeUser], hands
    an error to the error handler, and sets [req.user] only to a user that
    is not [null]. *)
Definition passport_session (su : option ObjectId) (w : World)
  : result (option User) * World :=
  match su with
  | None => (Ok None, w)
  | Some i =>
      match deserializeUser i w with
      | (Done (Some err) _, w') => (Throw err, w')
      | (Done None user, w') => (Ok user, w')
      end
  end.

Inductive Response :=
  | Status200 (id : ObjectId) (steamId steamName : option string)
              (isFullyAuthenticated : bool)
  | Status401 (error : string)
  | Status500 (error : string).

(** The handler of [GET /api/user], given [req.user]. *)
Definition api_user (req_user : option User) : Response :=
  match req_user with
  | None => Status401 "Not authenticated"
  | Some u =>
      Status200 (_id u) (steamId u) (steamName u) (isFullyAuthenticated u || false)
  end.

(** A request to [/api/user] behind the session middleware; an error goes
    to the error-handling middleware. *)
Definition get_api_user (su : option ObjectId) (w : World) : Response :=
  match fst (passport_session su w) with
  | Ok req_user => api_user req_user
  | Throw _ => Status500 "Internal server error"
  end.

(** ** Sample payloads and stores *)

Module Scenario.
Definition alice : Steam.profile :=
  Steam.mkProfile "76561198000000001" "alice"
    ["https://avatars.example/alice.jpg"] "https://steamcommunity.com/id/alice".

(** The same Steam account after a change of name and of custom URL. *)
Definition alice_moved : Steam.profile :=
  Steam.mkProfile "76561198000000001" "alice2"
    ["https://avatars.example/alice2.jpg"] "https://steamcommunity.com/id/alice2".

Definition bob : Steam.profile :=
  Steam.mkProfile "76561198000000002" "bob" [] "https://steamcommunity.com/id/bob".

Definition carol : Discord.profile :=
  Discord.mkProfile "300000000000000001" "carol" "0042" (Some "a1b2c3")
    (Some "carol@example.org").

Definition dave : Discord.profile :=
  Discord.mkProfile "300000000000000002" "dave" "0007" None None.

(** One Steam-only identity, created at time 100. *)
Definition one_steam : World := run [SteamLogin alice 100] (init []).

(** Two Steam-only identities: alice (older), then bob (newer). *)
Definition two_steam : World :=
  run [SteamLogin alice 100; SteamLogin bob 200] (init []).

(** One Discord-only identity. *)
Definition one_discord : World := run [DiscordLogin dave 50] (init []).

(** The Steam identity of alice after a second login at time 150. *)
Definition one_steam_seen : World :=
  run [SteamLogin alice 100; SteamLogin alice 150] (init []).

(** A store whose next round trip answers and whose second one rejects. *)
Definition outage : Error := MongoError "connection closed".
Definition two_steam_outage : World :=
  mkWorld (docs two_steam) (next_oid two_steam) [None; Some outage].

(** A session that refers to an identity that is no longer stored. *)
Definition stale_session : ObjectId := 7%nat.
End Scenario.

(** ** Either callback, and what a sequence keeps *)

(** The callback an operation invokes, with the [done] call it ends with. *)
Definition callback (o : Op) (w : World) : DoneCall * World :=
  match o with
  | SteamLogin p now => steam_verify p now w
  | DiscordLogin p now => discord_verify p now w
  end.

(** Two operations of the same provider with the same external id. *)
Definition same_account (o o' : Op) : Prop :=
  match o, o' with
  | SteamLogin p _, SteamLogin p' _ => Steam.id p' = Steam.id p
  | DiscordLogin p _, DiscordLogin p' _ => Discord.id p' = Discord.id p
  | _, _ => False
  end.

(** No value occurs at two places of a list of optional keys. *)
Definition unique_keys (ks : list (option string)) : Prop :=
  ∀ i j k, ks !! i = Some (Some k) → ks !! j = Some (Some k) → i = j.

(** What a stored document [u] keeps when it is found later as [u']:
    [_id], [steamId] and [createdAt]; its [discordId] once it has one; and
    [isFullyAuthenticated] once it is true. *)
Definition persists (u u' : User) : Prop :=
  _id u' = _id u ∧ steamId u' = steamId u ∧ createdAt u' = createdAt u ∧
  (is_set (discordId u) = true → discordId u' = discordId u) ∧
  (isFullyAuthenticated u = true → isFullyAuthenticated u' = true).

(** ** The [/api/servers] route *)

(** [ServerStatus.find({ isActive: true })]: one round trip.  The
    [ServerStatus] schema is not part of the sources; the route reads only
    [isActive], so the documents are of any type [S] with that path. *)
Definition ServerStatus_find_active {S} (isActive : S → bool) (servers : list S)
  : Async (list S) :=
  _ ← round_trip;
  mret (filter (λ s, isActive s = true) servers).

(** The handler of [GET /api/servers]: the body handed to [res.json], with
    status 200 on both paths.  A resolved [find] is an array, which is
    truthy, so [|| []] leaves it as it is. *)
Definition api_servers {S} (isActive : S → bool) (servers : list S)
  : World → list S * World :=
  try_catch
    (found ← ServerStatus_find_active isActive servers;
     mret found)
    (λ error, []).

(** ** The middleware stack *)

(** Which of the routes registered here a request matches, if any. *)
Inductive Target := GetHealth | GetRoot | GetApiUser | GetApiServers | Other.

(** The layers this file registers after the third-party middleware
    (helmet, the rate limiter, cors and the body parsers, none of which
    sets [req.user]). *)
Inductive Layer :=
  | HealthRoute
  | RootRoute
  | ApiUserRoute
  | ApiServersRoute
  | ErrorHandler
  | NotFoundHandler
  | SessionMiddleware
  | PassportInitialize
  | PassportSession.

Global Instance Layer_eq_dec : EqDecision Layer.
Proof. solve_decision. Defined.

(** Registered while the module loads, in this order. *)
Definition routes : list Layer :=
  [HealthRoute; RootRoute; ApiUserRoute; ApiServersRoute; ErrorHandler; NotFoundHandler].

(** Registered by [initializeSession], which runs in the [listen] callback
    once the database is connected. *)
Definition session_layers : list Layer :=
  [SessionMiddleware; PassportInitialize; PassportSession].

(** The router's stack: [app.use] and [app.get] append to it. *)
Definition stack (session_initialized : bool) : list Layer :=
  routes ++ (if session_initialized then session_layers else []).

Inductive Reply :=
  | Health200
  | Root200
  | UserReply (r : Response)
  | Servers200
  | NotFound404
  | Error500
  | Final404
  | Final500.

(** An error raised by a layer goes to the next error-handling middleware
    of the stack, or to the router's final handler. *)
Definition on_error (rest : list Layer) : Reply :=
  if decide (ErrorHandler ∈ rest) then Error500 else Final500.

(** A request goes through the stack in order until a layer answers; the
    error handler is skipped while there is no error, the ['*'] handler
    answers everything, and what no layer answers is left to the router's
    final handler. *)
Fixpoint dispatch (layers : list Layer) (t : Target) (su : option ObjectId)
    (req_user : option User) (w : World) : Reply :=
  match layers with
  | [] => Final404
  | l :: rest =>
      match l, t with
      | HealthRoute, GetHealth => Health200
      | RootRoute, GetRoot => Root200
      | ApiUserRoute, GetApiUser => UserReply (api_user req_user)
      | ApiServersRoute, GetApiServers => Servers200
      | NotFoundHandler, _ => NotFound404
      | PassportSession, _ =>
          match passport_session su w with
          | (Ok user, w') => dispatch rest t su user w'
          | (Throw _, _) => on_error rest
          end
      | _, _ => dispatch rest t su req_user w
      end
  end.

(** ** Equations of the persistence layer *)

Section Persistence.
Context (q : User → Prop) `{∀ u, Decision (q u)}.

Lemma quiet_after_trip n w : quiet (S n) w → quiet n (after_trip w).
Proof.
  unfold quiet, after_trip. simpl. destruct (faults w) as [|f fs]; simpl.
  - intros _. by rewrite take_nil.
  - intros Hq. by inversion Hq.
Qed.

Lemma round_trip_ok n w : quiet (S n) w → round_trip w = (Ok tt, after_trip w).
Proof.
  unfold quiet, round_trip. destruct (faults w) as [|[e|] fs]; simpl; try done.
  intros Hq. by inversion Hq.
Qed.

Lemma round_trip_throw e w :
  head (faults w) = Some (Some e) → round_trip w = (Throw e, after_trip w).
Proof. unfold round_trip. by intros ->. Qed.

Lemma findOne_ok n w :
  quiet (S n) w →
  findOne q w = (Ok (hydrate ∘ snd <$> list_find q (docs w)), after_trip w).
Proof.
  intros Hq. unfold findOne, mbind, Async_bind.
  by rewrite (round_trip_ok n w Hq).
Qed.

Lemma findOne_throw e w :
  head (faults w) = Some (Some e) → findOne q w = (Throw e, after_trip w).
Proof.
  intros Hq. unfold findOne, mbind, Async_bind.
  by rewrite (round_trip_throw e w Hq).
Qed.

Lemma findOne_sort_ok n w :
  quiet (S n) w →
  findOne_sort_createdAt_desc q w
  = (Ok (hydrate <$> latest (filter q (docs w))), after_trip w).
Proof.
  intros Hq. unfold findOne_sort_createdAt_desc, mbind, Async_bind.
  by rewrite (round_trip_ok n w Hq).
Qed.

Lemma findOne_sort_throw e w :
  head (faults w) = Some (Some e) →
  findOne_sort_createdAt_desc q w = (Throw e, after_trip w).
Proof.
  intros Hq. unfold findOne_sort_createdAt_desc, mbind, Async_bind.
  by rewrite (round_trip_throw e w Hq).
Qed.
End Persistence.

Lemma save_ok n d w :
  quiet (S n) w →
  save d w = (Ok (mkDocument (doc d) false),
              mkWorld (saved d (docs w)) (next_oid w) (tail (faults w))).
Proof.
  intros Hq. unfold save, mbind, Async_bind.
  by rewrite (round_trip_ok n w Hq).
Qed.

Lemma save_throw e d w :
  head (faults w) = Some (Some e) → save d w = (Throw e, after_trip w).
Proof.
  intros Hq. unfold save, mbind, Async_bind.
  by rewrite (round_trip_throw e w Hq).
Qed.

(** ** The branches of the callbacks when the database answers *)

Ltac callback_unfold :=
  unfold steam_verify, discord_verify, deserializeUser, findById, try_catch;
  unfold mbind, Async_bind.

Lemma steam_verify_unseen p now w :
  quiet 2 w →
  list_find (λ u, steamId u = Some (Steam.id p)) (docs w) = None →
  steam_verify p now w
  = (Done None (Some (steam_created p now (next_oid w))),
     mkWorld (docs w ++ [steam_created p now (next_oid w)])
             (S (next_oid w)) (tail (tail (faults w)))).
Proof.
  intros Hq Hfind. callback_unfold.
  rewrite (findOne_ok _ 1 w Hq), Hfind. simpl.
  apply quiet_after_trip in Hq.
  unfold new_User. by rewrite (save_ok 0).
Qed.

Lemma steam_verify_known p now w i u :
  quiet 2 w →
  list_find (λ u, steamId u = Some (Steam.id p)) (docs w) = Some (i, u) →
  steam_verify p now w
  = (Done None (Some (steam_refreshed p now u)),
     mkWorld (updateOne (steam_refreshed p now u) (docs w))
             (next_oid w) (tail (tail (faults w)))).
Proof.
  intros Hq Hfind. callback_unfold.
  rewrite (findOne_ok _ 1 w Hq), Hfind. simpl.
  apply quiet_after_trip in Hq.
  by rewrite (save_ok 0).
Qed.

Lemma discord_verify_known p now w i u :
  quiet 2 w →
  list_find (λ u, discordId u = Some (Discord.id p)) (docs w) = Some (i, u) →
  discord_verify p now w
  = (Done None (Some (discord_refreshed p now u)),
     mkWorld (updateOne (discord_refreshed p now u) (docs w))
             (next_oid w) (tail (tail (faults w)))).
Proof.
  intros Hq Hfind. callback_unfold.
  rewrite (findOne_ok _ 1 w Hq), Hfind. simpl.
  apply quiet_after_trip in Hq.
  rewrite (save_ok 0) by done.
  unfold discord_refreshed, saved. simpl.
  by destruct (truthy (steamId u) && truthy (discordId u)).
Qed.

Lemma discord_verify_link p now w c :
  quiet 3 w →
  list_find (λ u, discordId u = Some (Discord.id p)) (docs w) = None →
  latest (filter steam_only (docs w)) = Some c →
  discord_verify p now w
  = (Done None (Some (discord_linked p c)),
     mkWorld (updateOne (discord_linked p c) (docs w))
             (next_oid w) (tail (tail (tail (faults w))))).
Proof.
  intros Hq Hfind Hc. callback_unfold.
  rewrite (findOne_ok _ 2 w Hq), Hfind. simpl.
  apply quiet_after_trip in Hq.
  rewrite (findOne_sort_ok _ 1 _ Hq). simpl. rewrite Hc. simpl.
  apply quiet_after_trip in Hq.
  by rewrite (save_ok 0).
Qed.

Lemma discord_verify_fresh p now w :
  quiet 3 w →
  list_find (λ u, discordId u = Some (Discord.id p)) (docs w) = None →
  latest (filter steam_only (docs w)) = None →
  discord_verify p now w
  = (Done None (Some (discord_created p now (next_oid w))),
     mkWorld (docs w ++ [discord_created p now (next_oid w)])
             (S (next_oid w)) (tail (tail (tail (faults w))))).
Proof.
  intros Hq Hfind Hc. callback_unfold.
  rewrite (findOne_ok _ 2 w Hq), Hfind. simpl.
  apply quiet_after_trip in Hq.
  rewrite (findOne_sort_ok _ 1 _ Hq). simpl. rewrite Hc. simpl.
  apply quiet_after_trip in Hq.
  unfold new_User. by rewrite (save_ok 0).
Qed.

(** ** Facts about the collection *)

Lemma updateOne_length u ds : length (updateOne u ds) = length ds.
Proof. induction ds as [|d ds IH]; simpl; [done|]. case_decide; simpl; congruence. Qed.

Lemma updateOne_ids u ds : _id <$> updateOne u ds = _id <$> ds.
Proof.
  induction ds as [|d ds IH]; simpl; [done|].
  case_decide; csimpl; congruence.
Qed.

Lemma updateOne_at u d i ds :
  NoDup (_id <$> ds) → ds !! i = Some d → _id u = _id d →
  updateOne u ds = <[i:=u]> ds.
Proof.
  revert i. induction ds as [|x ds IH]; intros i Hnd Hi Hid; [done|].
  apply NoDup_cons in Hnd as [Hx Hnd]. destruct i as [|i]; simpl in *.
  - injection Hi as ->. by rewrite decide_True.
  - rewrite decide_False.
    + f_equal. by apply IH.
    + intros Hxu. apply Hx. rewrite Hxu, Hid.
      apply list_elem_of_fmap. exists d. split; [done|].
      by apply list_elem_of_lookup_2 with i.
Qed.

Lemma latest_None l : latest l = None → l = [].
Proof.
  destruct l as [|u l]; simpl; [done|].
  destruct (latest l); [case_match|]; done.
Qed.

Lemma latest_Some l c :
  latest l = Some c → c ∈ l ∧ ∀ u, u ∈ l → createdAt u ≤ createdAt c.
Proof.
  revert c. induction l as [|x l IH]; intros c; simpl; [done|].
  destruct (latest l) as [v|] eqn:Hl.
  - destruct (IH v eq_refl) as [Hv Hmax].
    destruct (Z.ltb_spec (createdAt x) (createdAt v)); intros [= <-].
    + split; [by right|]. intros u [->|Hu]%elem_of_cons; [lia|by apply Hmax].
    + split; [by left|]. intros u [->|Hu]%elem_of_cons; [lia|].
      specialize (Hmax u Hu). lia.
  - apply latest_None in Hl as ->. intros [= <-].
    split; [by left|]. by intros u ->%list_elem_of_singleton.
Qed.

(** The merge candidate, when there is one, is a Steam-only document of the
    collection with a greatest [createdAt] among the Steam-only ones. *)
Lemma candidate_Some ds c :
  latest (filter steam_only ds) = Some c →
  c ∈ ds ∧ steam_only c ∧
  ∀ u, u ∈ ds → steam_only u → createdAt u ≤ createdAt c.
Proof.
  intros [Hc Hmax]%latest_Some. apply list_elem_of_filter in Hc as [Hso Hc].
  repeat split; try done; try apply Hso.
  intros u Hu Hsu. apply Hmax. by apply list_elem_of_filter.
Qed.

Lemma candidate_None ds :
  latest (filter steam_only ds) = None → ∀ u, u ∈ ds → ¬ steam_only u.
Proof.
  intros Hnil%latest_None u Hu Hso.
  assert (u ∈ filter steam_only ds) as Hin by by apply list_elem_of_filter.
  rewrite Hnil in Hin. by apply not_elem_of_nil in Hin.
Qed.

Lemma candidate_exists ds u :
  u ∈ ds → steam_only u → is_Some (latest (filter steam_only ds)).
Proof.
  intros Hu Hso. destruct (latest _) eqn:Hl; [by eexists|].
  by destruct (candidate_None ds Hl u).
Qed.

Lemma find_unseen (q : User → Prop) `{∀ u, Decision (q u)} ds :
  (∀ u, u ∈ ds → ¬ q u) → list_find q ds = None.
Proof. intros Hq. apply list_find_None, Forall_forall. exact Hq. Qed.

(** ** Every round trip either answers or rejects *)

Lemma round_trip_cases w :
  round_trip w = (Ok tt, after_trip w) ∨ ∃ e, round_trip w = (Throw e, after_trip w).
Proof. unfold round_trip. destruct (head (faults w)) as [[e|]|]; eauto. Qed.

Lemma findOne_cases (q : User → Prop) `{∀ u, Decision (q u)} w :
  findOne q w = (Ok (hydrate ∘ snd <$> list_find q (docs w)), after_trip w)
  ∨ ∃ e, findOne q w = (Throw e, after_trip w).
Proof.
  unfold findOne, mbind, Async_bind.
  destruct (round_trip_cases w) as [->|[e ->]]; eauto.
Qed.

Lemma findOne_sort_cases (q : User → Prop) `{∀ u, Decision (q u)} w :
  findOne_sort_createdAt_desc q w
  = (Ok (hydrate <$> latest (filter q (docs w))), after_trip w)
  ∨ ∃ e, findOne_sort_createdAt_desc q w = (Throw e, after_trip w).
Proof.
  unfold findOne_sort_createdAt_desc, mbind, Async_bind.
  destruct (round_trip_cases w) as [->|[e ->]]; eauto.
Qed.

Lemma save_cases d w :
  save d w = (Ok (mkDocument (doc d) false),
              mkWorld (saved d (docs w)) (next_oid w) (tail (faults w)))
  ∨ ∃ e, save d w = (Throw e, after_trip w).
Proof.
  unfold save, mbind, Async_bind.
  destruct (round_trip_cases w) as [->|[e ->]]; eauto.
Qed.

(** ** Each callback moves the store along [evolves] *)

Lemma touched_steam_refreshed p now u : touched u (steam_refreshed p now u).
Proof. unfold touched. simpl. repeat split; try done. left. by split; [|left]. Qed.

Lemma truthy_is_set k : truthy k = true → is_set k = true.
Proof. by destruct k as [[|? ?]|]. Qed.

Lemma touched_discord_refreshed p now u : touched u (discord_refreshed p now u).
Proof.
  unfold touched, discord_refreshed. simpl.
  destruct (truthy (steamId u) && truthy (discordId u)) eqn:Hb; simpl.
  - apply andb_true_iff in Hb as [Hs Hd].
    repeat split; try done. left. split; [done|]. right.
    by repeat split; try apply truthy_is_set.
  - repeat split; try done. left. by split; [|left].
Qed.

Lemma touched_discord_linked p u : steam_only u → touched u (discord_linked p u).
Proof. intros Hso. unfold touched. simpl. repeat split; try done. by right. Qed.

Lemma flag_ok_steam_created p now i : flag_ok (steam_created p now i).
Proof. done. Qed.

Lemma flag_ok_discord_created p now i : flag_ok (discord_created p now i).
Proof. done. Qed.

Lemma steam_verify_evolves p now w : wf w → evolves w (snd (steam_verify p now w)).
Proof.
  intros [Hnd Hlt]. callback_unfold. cbv zeta.
  destruct (findOne_cases (λ u, steamId u = Some (Steam.id p)) w) as [->|[e ->]];
    simpl; [|by apply evolves_none].
  destruct (list_find _ (docs w)) as [[i u]|] eqn:Hfind; simpl.
  - apply list_find_Some in Hfind as (Hi & _ & _).
    match goal with |- context [save ?d ?w'] =>
      destruct (save_cases d w') as [->|[e ->]] end;
      simpl; [|by apply evolves_none].
    apply (evolves_update w i u (steam_refreshed p now u)); simpl; try done.
    + apply touched_steam_refreshed.
    + by apply updateOne_at with u.
  - unfold new_User.
    match goal with |- context [save ?d ?w'] =>
      destruct (save_cases d w') as [->|[e ->]] end;
      simpl; [|apply evolves_none; simpl; [done|lia]].
    by apply (evolves_insert w (steam_created p now (next_oid w))); simpl; auto.
Qed.

Lemma discord_verify_evolves p now w : wf w → evolves w (snd (discord_verify p now w)).
Proof.
  intros [Hnd Hlt]. callback_unfold. cbv zeta.
  destruct (findOne_cases (λ u, discordId u = Some (Discord.id p)) w) as [->|[e ->]];
    simpl; [|by apply evolves_none].
  destruct (list_find _ (docs w)) as [[i u]|] eqn:Hfind; simpl.
  - apply list_find_Some in Hfind as (Hi & _ & _).
    match goal with |- context [save ?d ?w'] =>
      destruct (save_cases d w') as [->|[e ->]] end;
      simpl; [|by apply evolves_none].
    apply (evolves_update w i u (discord_refreshed p now u)); simpl; try done.
    + apply touched_discord_refreshed.
    + unfold saved, discord_refreshed. simpl.
      destruct (truthy (steamId u) && truthy (discordId u)); simpl;
        by apply updateOne_at with u.
  - destruct (findOne_sort_cases steam_only (after_trip w)) as [->|[e ->]];
      simpl; [|by apply evolves_none].
    destruct (latest _) as [c|] eqn:Hc; simpl.
    + apply candidate_Some in Hc as (Hin & Hso & _).
      apply list_elem_of_lookup in Hin as [i Hi].
      match goal with |- context [save ?d ?w'] =>
        destruct (save_cases d w') as [->|[e ->]] end;
        simpl; [|by apply evolves_none].
      apply (evolves_update w i c (discord_linked p c)); simpl; try done.
      * by apply touched_discord_linked.
      * by apply updateOne_at with c.
    + unfold new_User.
      match goal with |- context [save ?d ?w'] =>
        destruct (save_cases d w') as [->|[e ->]] end;
        simpl; [|apply evolves_none; simpl; [done|lia]].
      by apply (evolves_insert w (discord_created p now (next_oid w))); simpl; auto.
Qed.

Lemma step_evolves w o : wf w → evolves w (step w o).
Proof.
  destruct o; simpl; [apply steam_verify_evolves|apply discord_verify_evolves].
Qed.

(** ** Invariants carried along [evolves] *)

Lemma evolves_wf w w' : wf w → evolves w w' → wf w'.
Proof.
  intros [Hnd Hlt] [? Hd Hn|u ? Hid _ _ Hd Hn|i u u' ? Hi Ht Hd Hn];
    unfold wf; rewrite Hd.
  - split; [done|]. eapply Forall_impl; [exact Hlt|]. simpl. lia.
  - rewrite fmap_app, Hn. split.
    + apply NoDup_app. split; [done|]. split; [|apply NoDup_singleton].
      intros x Hx ->%list_elem_of_singleton.
      apply list_elem_of_fmap in Hx as (y & Hy & Hin).
      rewrite Forall_forall in Hlt. specialize (Hlt y Hin). simpl in *. lia.
    + apply Forall_app. split.
      * eapply Forall_impl; [exact Hlt|]. simpl. lia.
      * apply Forall_singleton. lia.
  - destruct Ht as (Hid & _). rewrite Hn. split.
    + rewrite list_fmap_insert, Hid, list_insert_id; [done|].
      by rewrite list_lookup_fmap, Hi.
    + apply Forall_insert; [done|]. rewrite Hid.
      rewrite Forall_forall in Hlt. apply Hlt. by apply list_elem_of_lookup_2 with i.
Qed.

Lemma touched_flag_ok u u' : flag_ok u → touched u u' → flag_ok u'.
Proof.
  unfold flag_ok. intros Hu (_ & Hs & _ & [[Hd [Hf|(Hf & Hss & Hds)]]|([Hss Hdn] & Hd & Hf)]).
  - by rewrite Hf, Hs, Hd.
  - by rewrite Hf, Hs, Hd, Hss, Hds.
  - rewrite Hf, Hs, Hd. by destruct Hss as [? ->].
Qed.

Lemma evolves_flag_ok w w' :
  Forall flag_ok (docs w) → evolves w w' → Forall flag_ok (docs w').
Proof.
  intros Hall [? Hd Hn|u ? _ Hu _ Hd Hn|i u u' ? Hi Ht Hd Hn]; rewrite Hd.
  - done.
  - apply Forall_app. split; [done|]. by apply Forall_singleton.
  - apply Forall_insert; [done|]. apply touched_flag_ok with u; [|done].
    rewrite Forall_forall in Hall. apply Hall. by apply list_elem_of_lookup_2 with i.
Qed.

(** Along [evolves] a stored document keeps its place, its [_id] and its
    [steamId]; one without a [steamId] also keeps its [discordId]. *)
Lemma evolves_steamId w w' i u :
  evolves w w' → docs w !! i = Some u →
  ∃ u', docs w' !! i = Some u' ∧ _id u' = _id u ∧ steamId u' = steamId u ∧
        (steamId u = None → discordId u' = discordId u).
Proof.
  intros [? Hd Hn|v ? _ _ _ Hd Hn|j v v' ? Hj Ht Hd Hn] Hi; rewrite Hd.
  - by exists u.
  - exists u. by rewrite lookup_app_l_Some with (x := u).
  - destruct (decide (j = i)) as [->|Hne].
    + exists v'. rewrite list_lookup_insert_eq by by eapply lookup_lt_Some.
      rewrite Hi in Hj. injection Hj as ->.
      destruct Ht as (Hid & Hs & _ & [[Hd' _]|([[s Hss] _] & _)]).
      * done.
      * repeat split; try done. intros Hnone. congruence.
    + exists u. by rewrite list_lookup_insert_ne.
Qed.

(** ** Sequences of authentications *)

Lemma init_wf fs : wf (init fs).
Proof. split; [apply NoDup_nil_2|apply Forall_nil_2]. Qed.

Lemma step_wf w o : wf w → wf (step w o).
Proof. intros Hw. by apply evolves_wf with w, step_evolves. Qed.

Lemma run_wf ops w : wf w → wf (run ops w).
Proof.
  revert w. induction ops as [|o ops IH]; intros w Hw; [done|].
  apply IH. by apply step_wf.
Qed.

Lemma run_flag_ok ops w :
  wf w → Forall flag_ok (docs w) → Forall flag_ok (docs (run ops w)).
Proof.
  revert w. induction ops as [|o ops IH]; intros w Hw Hall; [done|].
  apply IH; [by apply step_wf|].
  apply evolves_flag_ok with w; [done|by apply step_evolves].
Qed.

Lemma run_steamId ops w i u :
  wf w → docs w !! i = Some u →
  ∃ u', docs (run ops w) !! i = Some u' ∧ _id u' = _id u ∧ steamId u' = steamId u ∧
        (steamId u = None → discordId u' = discordId u).
Proof.
  revert w u. induction ops as [|o ops IH]; intros w u Hw Hi; [by exists u|].
  destruct (evolves_steamId w (step w o) i u) as (v & Hv & Hid & Hs & Hd);
    [by apply step_evolves|done|].
  destruct (IH (step w o) v) as (u' & Hu' & Hid' & Hs' & Hd');
    [by apply step_wf|done|].
  exists u'. split; [done|]. split; [congruence|]. split; [congruence|].
  intros Hnone. rewrite Hd' by congruence. by apply Hd.
Qed.

(** ** The JavaScript expressions, spelled out on the payload *)

Lemma first_photo_head ph :
  first_photo ph
  = match ph with
    | [] => None
    | v :: _ => if decide (v = "") then None else Some v
    end.
Proof.
  unfold first_photo. destruct ph as [|[|a v] ph]; simpl; [done|..];
    repeat case_decide; done.
Qed.

Lemma truthy_nonempty k :
  truthy k = match k with
             | Some v => bool_decide (v ≠ "")
             | None => false
             end.
Proof.
  destruct k as [[|a v]|]; [| |done]; unfold truthy; symmetry.
  - apply bool_decide_eq_false. intros Hne. by apply Hne.
  - by apply bool_decide_eq_true.
Qed.

(** ** Steam authentication *)

(** C9. A Steam authentication whose id matches no stored [steamId], with
    the database answering, appends exactly one identity to the store: its
    [steamId] is the external id, its name and profile URL are those of the
    payload, its avatar is the value of the first photo of the payload when
    there is one and it is not empty (no avatar otherwise), it has no
    [discordId], and [isFullyAuthenticated] is false; that identity is what
    the callback hands to [done]. *)
Theorem steam_unseen_creates_identity (p : Steam.profile) (now : Date) (w : World) :
  quiet 2 w →
  (∀ u, u ∈ docs w → steamId u ≠ Some (Steam.id p)) →
  ∃ u, fst (steam_verify p now w) = Done None (Some u) ∧
       docs (snd (steam_verify p now w)) = docs w ++ [u] ∧
       steamId u = Some (Steam.id p) ∧
       steamName u = Some (Steam.displayName p) ∧
       steamAvatar u = match Steam.photos p with
                       | [] => None
                       | v :: _ => if decide (v = "") then None else Some v
                       end ∧
       steamProfileUrl u = Some (Steam._json_profileurl p) ∧
       discordId u = None ∧
       isFullyAuthenticated u = false.
Proof.
  intros Hq Hnew. exists (steam_created p now (next_oid w)).
  rewrite steam_verify_unseen; [|done|by apply find_unseen].
  simpl. by rewrite first_photo_head.
Qed.

Lemma steam_unseen_creates_identity_witness :
  ∃ u, fst (steam_verify Scenario.alice 200 Scenario.one_discord) = Done None (Some u) ∧
       docs (snd (steam_verify Scenario.alice 200 Scenario.one_discord))
       = docs Scenario.one_discord ++ [u] ∧
       steamId u = Some "76561198000000001" ∧
       steamName u = Some "alice" ∧
       steamAvatar u = Some "https://avatars.example/alice.jpg" ∧
       steamProfileUrl u = Some "https://steamcommunity.com/id/alice" ∧
       discordId u = None ∧
       isFullyAuthenticated u = false.
Proof.
  apply (steam_unseen_creates_identity Scenario.alice 200 Scenario.one_discord).
  - apply (bool_decide_unpack _). vm_compute. exact I.
  - apply Forall_forall. apply (bool_decide_unpack _). vm_compute. exact I.
Defined.

(** C4. A Steam authentication whose id matches a stored [steamId], with
    the database answering, creates no record: exactly one stored identity,
    one with that [steamId], is rewritten in place, its [lastLogin] becomes
    the current time, its [discordId] and [isFullyAuthenticated] are as
    before, and every other identity of the store is unchanged. *)
Theorem steam_known_updates_in_place (p : Steam.profile) (now : Date) (w : World) (u : User) :
  wf w → quiet 2 w →
  u ∈ docs w → steamId u = Some (Steam.id p) →
  ∃ i r r', docs w !! i = Some r ∧ steamId r = Some (Steam.id p) ∧
            fst (steam_verify p now w) = Done None (Some r') ∧
            docs (snd (steam_verify p now w)) = <[i:=r']> (docs w) ∧
            length (docs (snd (steam_verify p now w))) = length (docs w) ∧
            _id r' = _id r ∧
            lastLogin r' = Some now ∧
            discordId r' = discordId r ∧
            isFullyAuthenticated r' = isFullyAuthenticated r.
Proof.
  intros [Hnd _] Hq Hu Hs.
  destruct (list_find_elem_of (λ x, steamId x = Some (Steam.id p)) (docs w) u)
    as [[i r] Hfind]; [done|done|].
  rewrite (steam_verify_known p now w i r Hq Hfind).
  apply list_find_Some in Hfind as (Hi & Hr & _).
  exists i, r, (steam_refreshed p now r). simpl.
  rewrite (updateOne_at _ r i) by done.
  by rewrite length_insert.
Qed.

Lemma steam_known_updates_in_place_witness :
  ∃ i r r', docs Scenario.two_steam !! i = Some r ∧
            steamId r = Some (Steam.id Scenario.alice_moved) ∧
            fst (steam_verify Scenario.alice_moved 400 Scenario.two_steam)
            = Done None (Some r') ∧
            docs (snd (steam_verify Scenario.alice_moved 400 Scenario.two_steam))
            = <[i:=r']> (docs Scenario.two_steam) ∧
            length (docs (snd (steam_verify Scenario.alice_moved 400 Scenario.two_steam)))
            = length (docs Scenario.two_steam) ∧
            _id r' = _id r ∧
            lastLogin r' = Some 400 ∧
            discordId r' = discordId r ∧
            isFullyAuthenticated r' = isFullyAuthenticated r.
Proof.
  apply (steam_known_updates_in_place Scenario.alice_moved 400 Scenario.two_steam
           (steam_created Scenario.alice 100 0%nat)).
  - apply (bool_decide_unpack _). vm_compute. exact I.
  - vm_compute. constructor.
  - vm_compute. left.
  - reflexivity.
Defined.

(** ** Discord authentication: the merge candidate *)

Lemma wf_same_id w a c : wf w → a ∈ docs w → c ∈ docs w → _id a = _id c → a = c.
Proof.
  intros [Hnd _] [i Hi]%list_elem_of_lookup [j Hj]%list_elem_of_lookup Hid.
  assert (i = j) as ->.
  { apply (NoDup_lookup (_id <$> docs w) i j (_id a)); [done|..].
    - by rewrite list_lookup_fmap, Hi.
    - by rewrite list_lookup_fmap, Hj, Hid. }
  congruence.
Qed.

(** The link branch, with the candidate named. *)
Lemma discord_link_spec p now w c0 :
  wf w → quiet 3 w →
  (∀ u, u ∈ docs w → discordId u ≠ Some (Discord.id p)) →
  c0 ∈ docs w → steam_only c0 →
  ∃ i c, docs w !! i = Some c ∧ steam_only c ∧
         (∀ u, u ∈ docs w → steam_only u → createdAt u ≤ createdAt c) ∧
         discord_verify p now w
         = (Done None (Some (discord_linked p c)),
            mkWorld (<[i:=discord_linked p c]> (docs w)) (next_oid w)
                    (tail (tail (tail (faults w))))).
Proof.
  intros Hw Hq Hnew Hc0 Hso0.
  destruct (candidate_exists (docs w) c0 Hc0 Hso0) as [c Hc].
  destruct (candidate_Some (docs w) c Hc) as (Hin & Hso & Hmax).
  apply list_elem_of_lookup in Hin as [i Hi].
  exists i, c. repeat split; try done; try apply Hso.
  rewrite (discord_verify_link p now w c); [|done|by apply find_unseen|done].
  destruct Hw as [Hnd _]. by rewrite (updateOne_at _ c i).
Qed.

(** C1. A Discord authentication whose id matches no stored [discordId],
    with the database answering and some identity having [steamId] set and
    [discordId] unset, resolves to one such identity [c] whose [createdAt]
    is greatest among them; only that one document is written; of two
    Steam-only identities the older one is never the one selected. *)
Theorem discord_merge_candidate_is_latest
    (p : Discord.profile) (now : Date) (w : World) (c0 : User) :
  wf w → quiet 3 w →
  (∀ u, u ∈ docs w → discordId u ≠ Some (Discord.id p)) →
  c0 ∈ docs w → steam_only c0 →
  ∃ i c c', docs w !! i = Some c ∧ steam_only c ∧
            (∀ u, u ∈ docs w → steam_only u → createdAt u ≤ createdAt c) ∧
            fst (discord_verify p now w) = Done None (Some c') ∧
            _id c' = _id c ∧ steamId c' = steamId c ∧ createdAt c' = createdAt c ∧
            docs (snd (discord_verify p now w)) = <[i:=c']> (docs w) ∧
            (∀ a b, a ∈ docs w → b ∈ docs w → steam_only a → steam_only b →
                    createdAt a < createdAt b → _id c' ≠ _id a).
Proof.
  intros Hw Hq Hnew Hc0 Hso0.
  destruct (discord_link_spec p now w c0) as (i & c & Hi & Hso & Hmax & ->); try done.
  exists i, c, (discord_linked p c). simpl. repeat split; try done; try apply Hso.
  intros a b Ha Hb Hsa Hsb Hlt Hid.
  assert (a = c) as ->.
  { apply (wf_same_id w); [done|done|by apply list_elem_of_lookup_2 with i|done]. }
  specialize (Hmax b Hb Hsb). lia.
Qed.

(** C2. On that branch the candidate ends with [discordId] equal to the
    external id, the Discord profile fields of the payload (as name the
    username, a [#] and the discriminator; the avatar; the email), and
    [isFullyAuthenticated] true; it replaces the candidate in place, so the
    store has as many identities as before. *)
Theorem discord_link_attaches_to_candidate
    (p : Discord.profile) (now : Date) (w : World) (c0 : User) :
  wf w → quiet 3 w →
  (∀ u, u ∈ docs w → discordId u ≠ Some (Discord.id p)) →
  c0 ∈ docs w → steam_only c0 →
  ∃ i c c', docs w !! i = Some c ∧ steam_only c ∧
            fst (discord_verify p now w) = Done None (Some c') ∧
            docs (snd (discord_verify p now w)) = <[i:=c']> (docs w) ∧
            docs (snd (discord_verify p now w)) !! i = Some c' ∧
            length (docs (snd (discord_verify p now w))) = length (docs w) ∧
            _id c' = _id c ∧ steamId c' = steamId c ∧
            discordId c' = Some (Discord.id p) ∧
            discordName c' = Some (Discord.username p +:+ "#" +:+ Discord.discriminator p) ∧
            discordAvatar c' = Discord.avatar p ∧
            discordEmail c' = Discord.email p ∧
            isFullyAuthenticated c' = true.
Proof.
  intros Hw Hq Hnew Hc0 Hso0.
  destruct (discord_link_spec p now w c0) as (i & c & Hi & Hso & Hmax & ->); try done.
  exists i, c, (discord_linked p c). simpl.
  rewrite length_insert, list_lookup_insert_eq by by eapply lookup_lt_Some.
  repeat split; try done; apply Hso.
Qed.

Lemma discord_merge_candidate_is_latest_witness :
  ∃ i c c', docs Scenario.two_steam !! i = Some c ∧ steam_only c ∧
            (∀ u, u ∈ docs Scenario.two_steam → steam_only u → createdAt u ≤ createdAt c) ∧
            fst (discord_verify Scenario.carol 300 Scenario.two_steam)
            = Done None (Some c') ∧
            _id c' = _id c ∧ steamId c' = steamId c ∧ createdAt c' = createdAt c ∧
            docs (snd (discord_verify Scenario.carol 300 Scenario.two_steam))
            = <[i:=c']> (docs Scenario.two_steam) ∧
            (∀ a b, a ∈ docs Scenario.two_steam → b ∈ docs Scenario.two_steam →
                    steam_only a → steam_only b →
                    createdAt a < createdAt b → _id c' ≠ _id a).
Proof.
  apply (discord_merge_candidate_is_latest Scenario.carol 300 Scenario.two_steam
           (steam_created Scenario.alice 100 0%nat)).
  - apply (bool_decide_unpack _). vm_compute. exact I.
  - apply (bool_decide_unpack _). vm_compute. exact I.
  - apply Forall_forall. apply (bool_decide_unpack _). vm_compute. exact I.
  - apply (bool_decide_unpack _). vm_compute. exact I.
  - apply (bool_decide_unpack _). vm_compute. exact I.
Defined.

Lemma discord_link_attaches_to_candidate_witness :
  ∃ i c c', docs Scenario.one_steam !! i = Some c ∧ steam_only c ∧
            fst (discord_verify Scenario.carol 300 Scenario.one_steam)
            = Done None (Some c') ∧
            docs (snd (discord_verify Scenario.carol 300 Scenario.one_steam))
            = <[i:=c']> (docs Scenario.one_steam) ∧
            docs (snd (discord_verify Scenario.carol 300 Scenario.one_steam)) !! i
            = Some c' ∧
            length (docs (snd (discord_verify Scenario.carol 300 Scenario.one_steam)))
            = length (docs Scenario.one_steam) ∧
            _id c' = _id c ∧ steamId c' = steamId c ∧
            discordId c' = Some "300000000000000001" ∧
            discordName c' = Some "carol#0042" ∧
            discordAvatar c' = Some "a1b2c3" ∧
            discordEmail c' = Some "carol@example.org" ∧
            isFullyAuthenticated c' = true.
Proof.
  apply (discord_link_attaches_to_candidate Scenario.carol 300 Scenario.one_steam
           (steam_created Scenario.alice 100 0%nat)).
  - apply (bool_decide_unpack _). vm_compute. exact I.
  - apply (bool_decide_unpack _). vm_compute. exact I.
  - apply Forall_forall. apply (bool_decide_unpack _). vm_compute. exact I.
  - apply (bool_decide_unpack _). vm_compute. exact I.
  - apply (bool_decide_unpack _). vm_compute. exact I.
Defined.

(** The scenario of the two Steam-only identities, evaluated: the newer
    one (bob, [_id] 1) is linked, the older one (alice) is left alone. *)
Example two_steam_newer_is_linked :
  (λ u, (_id u, discordId u)) <$> docs (snd (discord_verify Scenario.carol 300 Scenario.two_steam))
  = [(0%nat, None); (1%nat, Some (Discord.id Scenario.carol))].
Proof. reflexivity. Qed.

(** ** The flag invariant and the direction of linking *)

(** C3. After any sequence of Steam and Discord authentications from the
    empty store, whatever round trips fail on the way, every stored identity
    has [isFullyAuthenticated] true exactly when both [steamId] and
    [discordId] are set: true with both keys, false with at most one. *)
Theorem flag_tracks_both_keys (ops : list Op) (fs : list (option Error)) :
  Forall (λ u, isFullyAuthenticated u = is_set (steamId u) && is_set (discordId u))
         (docs (run ops (init fs))).
Proof.
  apply (run_flag_ok ops (init fs)); [apply init_wf|apply Forall_nil_2].
Qed.

(** C10. An identity stored without a [steamId] never acquires one: after
    any sequence of authentications it is still at its place in the store,
    with the same [_id], no [steamId] and the [discordId] it had. *)
Theorem discord_only_never_gains_steamId (ops : list Op) (w : World) (i : nat) (u : User) :
  wf w → docs w !! i = Some u → steamId u = None →
  ∃ u', docs (run ops w) !! i = Some u' ∧ _id u' = _id u ∧
        steamId u' = None ∧ discordId u' = discordId u.
Proof.
  intros Hw Hi Hnone.
  destruct (run_steamId ops w i u Hw Hi) as (u' & Hu' & Hid & Hs & Hd).
  exists u'. repeat split; [done|done|congruence|by apply Hd].
Qed.

Lemma discord_only_never_gains_steamId_witness :
  ∃ u', docs (run [SteamLogin Scenario.alice 100; DiscordLogin Scenario.carol 300;
                   SteamLogin Scenario.bob 400] Scenario.one_discord) !! 0%nat = Some u' ∧
        _id u' = _id (discord_created Scenario.dave 50 0%nat) ∧
        steamId u' = None ∧
        discordId u' = discordId (discord_created Scenario.dave 50 0%nat).
Proof.
  apply (discord_only_never_gains_steamId _ Scenario.one_discord 0%nat
           (discord_created Scenario.dave 50 0%nat)).
  - apply (bool_decide_unpack _). vm_compute. exact I.
  - reflexivity.
  - reflexivity.
Defined.

(** ** Persistence errors *)

Lemma fails_at_head e w : fails_at 0 e w → head (faults w) = Some (Some e).
Proof. intros [_ H0]. by rewrite head_lookup. Qed.

Lemma fails_at_after_trip n e w :
  fails_at (S n) e w → quiet 1 w ∧ fails_at n e (after_trip w).
Proof.
  intros [Hq Hn]. split; [|split].
  - unfold quiet in *. destruct (faults w) as [|f fs]; simpl in *; [done|].
    apply Forall_cons in Hq as [-> _]. rewrite take_0. by apply Forall_singleton.
  - by apply quiet_after_trip.
  - simpl. by rewrite lookup_tail.
Qed.

Lemma tail_drop {A} n (l : list A) : tail (drop n l) = drop (S n) l.
Proof.
  revert l. induction n as [|n IH]; intros [|x l]; simpl; done.
Qed.

(** C8. When a round trip of an authentication rejects with [e], the
    callback ends with [done(e, null)], the collection is what it was
    before the call, and no further round trip is made.  The Steam callback
    makes two round trips; the Discord callback makes two when the id is
    known and three otherwise. *)
Theorem persistence_error_aborts (n : nat) (e : Error) (w : World) :
  fails_at n e w →
  (∀ p now, (n < 2)%nat →
     fst (steam_verify p now w) = Done (Some e) None ∧
     docs (snd (steam_verify p now w)) = docs w ∧
     faults (snd (steam_verify p now w)) = drop (S n) (faults w)) ∧
  (∀ p now,
     (n < 2)%nat ∨
     (n = 2%nat ∧ ∀ u, u ∈ docs w → discordId u ≠ Some (Discord.id p)) →
     fst (discord_verify p now w) = Done (Some e) None ∧
     docs (snd (discord_verify p now w)) = docs w ∧
     faults (snd (discord_verify p now w)) = drop (S n) (faults w)).
Proof.
  intros Hf. split; intros p now Hn.
  - destruct n as [|[|n]]; [| |lia].
    + apply fails_at_head in Hf. callback_unfold. cbv zeta.
      rewrite (findOne_throw _ e w Hf). simpl. by rewrite <-!tail_drop.
    + apply fails_at_after_trip in Hf as [Hq Hf]. apply fails_at_head in Hf.
      callback_unfold. cbv zeta. rewrite (findOne_ok _ 0 w Hq).
      destruct (list_find _ (docs w)) as [[i u]|]; simpl.
      * rewrite (save_throw e) by done. simpl. by rewrite <-!tail_drop.
      * unfold new_User. rewrite (save_throw e) by done. simpl.
        by rewrite <-!tail_drop.
  - destruct n as [|[|n]].
    + apply fails_at_head in Hf. callback_unfold. cbv zeta.
      rewrite (findOne_throw _ e w Hf). simpl. by rewrite <-!tail_drop.
    + apply fails_at_after_trip in Hf as [Hq Hf]. apply fails_at_head in Hf.
      callback_unfold. cbv zeta. rewrite (findOne_ok _ 0 w Hq).
      destruct (list_find _ (docs w)) as [[i u]|]; simpl.
      * destruct (truthy (steamId u) && truthy (discordId u));
          rewrite (save_throw e) by done; simpl; by rewrite <-!tail_drop.
      * rewrite (findOne_sort_throw _ e) by done. simpl. by rewrite <-!tail_drop.
    + destruct Hn as [Hn|[[= ->] Hnew]]; [lia|].
      apply fails_at_after_trip in Hf as [Hq Hf].
      apply fails_at_after_trip in Hf as [Hq' Hf]. apply fails_at_head in Hf.
      callback_unfold. cbv zeta. rewrite (findOne_ok _ 0 w Hq).
      rewrite find_unseen by done. simpl.
      rewrite (findOne_sort_ok _ 0 _ Hq'). simpl.
      destruct (latest _) as [c|]; simpl.
      * rewrite (save_throw e) by done. simpl. by rewrite <-!tail_drop.
      * unfold new_User. rewrite (save_throw e) by done. simpl.
        by rewrite <-!tail_drop.
Qed.

Lemma persistence_error_aborts_witness :
  (∀ p now, (1 < 2)%nat →
     fst (steam_verify p now Scenario.two_steam_outage)
     = Done (Some Scenario.outage) None ∧
     docs (snd (steam_verify p now Scenario.two_steam_outage))
     = docs Scenario.two_steam_outage ∧
     faults (snd (steam_verify p now Scenario.two_steam_outage))
     = drop 2 (faults Scenario.two_steam_outage)) ∧
  (∀ p now,
     (1 < 2)%nat ∨
     (1%nat = 2%nat ∧
      ∀ u, u ∈ docs Scenario.two_steam_outage → discordId u ≠ Some (Discord.id p)) →
     fst (discord_verify p now Scenario.two_steam_outage)
     = Done (Some Scenario.outage) None ∧
     docs (snd (discord_verify p now Scenario.two_steam_outage))
     = docs Scenario.two_steam_outage ∧
     faults (snd (discord_verify p now Scenario.two_steam_outage))
     = drop 2 (faults Scenario.two_steam_outage)).
Proof.
  apply (persistence_error_aborts 1 Scenario.outage Scenario.two_steam_outage).
  split.
  - apply (bool_decide_unpack _). vm_compute. exact I.
  - reflexivity.
Defined.

(** ** Session deserialisation *)

(** C7, as the code has it. When the serialised id matches no stored identity and
    the lookup itself answers, [deserializeUser] ends with [done(null, null)]:
    no error is raised.  The session middleware then leaves the request
    without a user, exactly as for a request that carries no session, and
    [/api/user] answers 401 "Not authenticated" in both cases. *)
Theorem deserialize_missing_is_unauthenticated (i : ObjectId) (w : World) :
  quiet 1 w →
  (∀ u, u ∈ docs w → _id u ≠ i) →
  deserializeUser i w = (Done None None, after_trip w) ∧
  fst (passport_session (Some i) w) = Ok None ∧
  fst (passport_session None w) = Ok None ∧
  get_api_user (Some i) w = Status401 "Not authenticated" ∧
  get_api_user None w = Status401 "Not authenticated".
Proof.
  intros Hq Hgone.
  assert (deserializeUser i w = (Done None None, after_trip w)) as Hd.
  { callback_unfold. rewrite (findOne_ok _ 0 w Hq).
    by rewrite find_unseen. }
  unfold get_api_user, passport_session. by rewrite Hd.
Qed.

Lemma deserialize_missing_is_unauthenticated_witness :
  deserializeUser Scenario.stale_session Scenario.one_steam
  = (Done None None, after_trip Scenario.one_steam) ∧
  fst (passport_session (Some Scenario.stale_session) Scenario.one_steam) = Ok None ∧
  fst (passport_session None Scenario.one_steam) = Ok None ∧
  get_api_user (Some Scenario.stale_session) Scenario.one_steam
  = Status401 "Not authenticated" ∧
  get_api_user None Scenario.one_steam = Status401 "Not authenticated".
Proof.
  apply (deserialize_missing_is_unauthenticated Scenario.stale_session Scenario.one_steam).
  - apply (bool_decide_unpack _). vm_compute. exact I.
  - apply Forall_forall. apply (bool_decide_unpack _). vm_compute. exact I.
Defined.

(** C7 as stated fails: with one stored identity and a session that refers
    to an id that is not stored, the callback reports neither an error nor
    a user, and the request is answered like one without any session. *)
Lemma deserialize_missing_not_distinct :
  (∀ u, u ∈ docs Scenario.one_steam → _id u ≠ Scenario.stale_session) ∧
  fst (deserializeUser Scenario.stale_session Scenario.one_steam) = Done None None ∧
  fst (passport_session (Some Scenario.stale_session) Scenario.one_steam)
  = fst (passport_session None Scenario.one_steam) ∧
  get_api_user (Some Scenario.stale_session) Scenario.one_steam
  = get_api_user None Scenario.one_steam.
Proof.
  split; [|done].
  apply Forall_forall. apply (bool_decide_unpack _). vm_compute. exact I.
Qed.

(** A rejected lookup, by contrast, does reach the error channel. *)
Lemma deserialize_error_is_signalled i e w :
  head (faults w) = Some (Some e) →
  fst (deserializeUser i w) = Done (Some e) None ∧
  get_api_user (Some i) w = Status500 "Internal server error".
Proof.
  intros Hf.
  assert (deserializeUser i w = (Done (Some e) None, after_trip w)) as Hd.
  { callback_unfold. by rewrite (findOne_throw _ e w Hf). }
  unfold get_api_user, passport_session. by rewrite Hd.
Qed.

(** ** Profile fields and [lastLogin] on the paths that resolve a stored identity *)

(** What a known Steam id does get refreshed: name, avatar and [lastLogin];
    [steamProfileUrl] is carried over from the stored document. *)
Lemma steam_refreshed_fields p now u :
  steamName (steam_refreshed p now u) = Some (Steam.displayName p) ∧
  steamAvatar (steam_refreshed p now u) = first_photo (Steam.photos p) ∧
  lastLogin (steam_refreshed p now u) = Some now ∧
  steamProfileUrl (steam_refreshed p now u) = steamProfileUrl u.
Proof. done. Qed.

(** A known Discord id gets all three Discord fields and [lastLogin]. *)
Lemma discord_refreshed_fields p now u :
  discordName (discord_refreshed p now u) = Some (discord_tag p) ∧
  discordAvatar (discord_refreshed p now u) = Discord.avatar p ∧
  discordEmail (discord_refreshed p now u) = Discord.email p ∧
  lastLogin (discord_refreshed p now u) = Some now.
Proof.
  unfold discord_refreshed. simpl.
  by destruct (truthy (steamId u) && truthy (discordId u)).
Qed.

(** The link branch carries [lastLogin] over from the stored document. *)
Lemma discord_linked_lastLogin p u : lastLogin (discord_linked p u) = lastLogin u.
Proof. done. Qed.

Lemma quiet_le n m w : (n ≤ m)%nat → quiet m w → quiet n w.
Proof.
  unfold quiet. intros Hnm Hq.
  replace n with (n `min` m)%nat by lia. rewrite <-take_take. by apply Forall_take.
Qed.

(** A first Steam login followed by one with the same payload: one identity
    is appended, and after the second login all its Steam fields are those
    of the payload (the profile URL because creation wrote it). *)
Lemma steam_login_twice_same_payload p t1 t2 w :
  wf w → quiet 4 w →
  (∀ u, u ∈ docs w → steamId u ≠ Some (Steam.id p)) →
  ∃ u, docs (snd (steam_verify p t2 (snd (steam_verify p t1 w)))) = docs w ++ [u] ∧
       fst (steam_verify p t2 (snd (steam_verify p t1 w))) = Done None (Some u) ∧
       steamId u = Some (Steam.id p) ∧
       steamName u = Some (Steam.displayName p) ∧
       steamAvatar u = first_photo (Steam.photos p) ∧
       steamProfileUrl u = Some (Steam._json_profileurl p).
Proof.
  intros Hw Hq Hnew.
  assert (wf (snd (steam_verify p t1 w))) as Hw1.
  { by apply evolves_wf with w, steam_verify_evolves. }
  revert Hw1.
  rewrite (steam_verify_unseen p t1 w);
    [|by apply quiet_le with 4%nat; [lia|]|by apply find_unseen].
  simpl. intros [Hnd _]. simpl in Hnd.
  set (u := steam_created p t1 (next_oid w)) in *.
  set (w1 := mkWorld _ _ _).
  assert (quiet 2 w1) as Hq1.
  { change (quiet 2 (after_trip (after_trip w))).
    by do 2 apply quiet_after_trip. }
  assert (list_find (λ x, steamId x = Some (Steam.id p)) (docs w1)
          = Some (length (docs w), u)) as Hfind.
  { subst w1. simpl. rewrite list_find_app_r by by apply find_unseen.
    simpl. rewrite decide_True by done. done. }
  rewrite (steam_verify_known p t2 w1 _ u Hq1 Hfind). simpl.
  exists (steam_refreshed p t2 u).
  rewrite (updateOne_at _ u (length (docs w))); [|done| |done].
  - replace (length (docs w)) with (length (docs w) + 0)%nat at 1 by lia.
    by rewrite insert_app_r.
  - by apply list_lookup_middle.
Qed.

(** C5, at the failing input: alice logs in through Steam, changes her name,
    avatar and custom URL, and logs in again.  Still one identity; name and
    avatar are those of the second payload, but [steamProfileUrl] is the
    one of the first payload, not of the latest. *)
Theorem steam_relogin_keeps_old_profile_url :
  ∃ u, fst (steam_verify Scenario.alice_moved 400 Scenario.one_steam)
       = Done None (Some u) ∧
       docs (snd (steam_verify Scenario.alice_moved 400 Scenario.one_steam)) = [u] ∧
       steamName u = Some (Steam.displayName Scenario.alice_moved) ∧
       steamAvatar u = first_photo (Steam.photos Scenario.alice_moved) ∧
       steamProfileUrl u = Some (Steam._json_profileurl Scenario.alice) ∧
       steamProfileUrl u ≠ Some (Steam._json_profileurl Scenario.alice_moved).
Proof.
  exists (steam_refreshed Scenario.alice_moved 400 (steam_created Scenario.alice 100 0%nat)).
  vm_compute. by repeat split.
Qed.

(** C6, at the failing input: alice last logged in through Steam at time
    150; the Discord login of carol at time 300 resolves to alice's stored
    identity through the link branch, and its [lastLogin] is still 150. *)
Theorem discord_link_keeps_old_lastLogin :
  ∃ u, fst (discord_verify Scenario.carol 300 Scenario.one_steam_seen)
       = Done None (Some u) ∧
       docs (snd (discord_verify Scenario.carol 300 Scenario.one_steam_seen)) = [u] ∧
       steamId u = Some (Steam.id Scenario.alice) ∧
       discordId u = Some (Discord.id Scenario.carol) ∧
       lastLogin u = Some 150 ∧
       lastLogin u ≠ Some 300.
Proof.
  exists (discord_linked Scenario.carol
            (steam_refreshed Scenario.alice 150 (steam_created Scenario.alice 100 0%nat))).
  vm_compute. by repeat split.
Qed.

(** ** The outcomes of a callback, whatever the faults *)

Lemma steam_verify_cases p now w :
  (∃ e w', steam_verify p now w = (Done (Some e) None, w') ∧ docs w' = docs w)
  ∨ (list_find (λ u, steamId u = Some (Steam.id p)) (docs w) = None ∧
     ∃ fs, steam_verify p now w
           = (Done None (Some (steam_created p now (next_oid w))),
              mkWorld (docs w ++ [steam_created p now (next_oid w)])
                      (S (next_oid w)) fs))
  ∨ (∃ i u fs,
       list_find (λ u, steamId u = Some (Steam.id p)) (docs w) = Some (i, u) ∧
       steam_verify p now w
       = (Done None (Some (steam_refreshed p now u)),
          mkWorld (updateOne (steam_refreshed p now u) (docs w)) (next_oid w) fs)).
Proof.
  callback_unfold. cbv zeta.
  destruct (findOne_cases (λ u, steamId u = Some (Steam.id p)) w) as [->|[e ->]];
    simpl; [|left; by eexists _, _].
  destruct (list_find _ (docs w)) as [[i u]|] eqn:Hfind; simpl.
  - match goal with |- context [save ?d ?w'] =>
      destruct (save_cases d w') as [->|[e ->]] end; simpl.
    + right. right. by eexists i, u, _.
    + left. by eexists _, _.
  - unfold new_User.
    match goal with |- context [save ?d ?w'] =>
      destruct (save_cases d w') as [->|[e ->]] end; simpl.
    + right. left. split; [done|]. by eexists.
    + left. by eexists _, _.
Qed.

Lemma discord_verify_cases p now w :
  (∃ e w', discord_verify p now w = (Done (Some e) None, w') ∧ docs w' = docs w)
  ∨ (list_find (λ u, discordId u = Some (Discord.id p)) (docs w) = None ∧
     latest (filter steam_only (docs w)) = None ∧
     ∃ fs, discord_verify p now w
           = (Done None (Some (discord_created p now (next_oid w))),
              mkWorld (docs w ++ [discord_created p now (next_oid w)])
                      (S (next_oid w)) fs))
  ∨ (list_find (λ u, discordId u = Some (Discord.id p)) (docs w) = None ∧
     ∃ c fs, latest (filter steam_only (docs w)) = Some c ∧
             discord_verify p now w
             = (Done None (Some (discord_linked p c)),
                mkWorld (updateOne (discord_linked p c) (docs w)) (next_oid w) fs))
  ∨ (∃ i u fs,
       list_find (λ u, discordId u = Some (Discord.id p)) (docs w) = Some (i, u) ∧
       discord_verify p now w
       = (Done None (Some (discord_refreshed p now u)),
          mkWorld (updateOne (discord_refreshed p now u) (docs w)) (next_oid w) fs)).
Proof.
  callback_unfold. cbv zeta.
  destruct (findOne_cases (λ u, discordId u = Some (Discord.id p)) w) as [->|[e ->]];
    simpl; [|left; by eexists _, _].
  destruct (list_find _ (docs w)) as [[i u]|] eqn:Hfind; simpl.
  - match goal with |- context [save ?d ?w'] =>
      destruct (save_cases d w') as [->|[e ->]] end; simpl.
    + do 3 right. eexists i, u, _. split; [done|].
      unfold discord_refreshed, saved. simpl.
      by destruct (truthy (steamId u) && truthy (discordId u)).
    + left. by eexists _, _.
  - destruct (findOne_sort_cases steam_only (after_trip w)) as [->|[e ->]];
      simpl; [|left; by eexists _, _].
    destruct (latest _) as [c|] eqn:Hc; simpl.
    + match goal with |- context [save ?d ?w'] =>
        destruct (save_cases d w') as [->|[e ->]] end; simpl.
      * right. right. left. split; [done|]. by eexists c, _.
      * left. by eexists _, _.
    + unfold new_User.
      match goal with |- context [save ?d ?w'] =>
        destruct (save_cases d w') as [->|[e ->]] end; simpl.
      * right. left. repeat split; try done. by eexists.
      * left. by eexists _, _.
Qed.

Lemma step_callback w o : step w o = snd (callback o w).
Proof. by destruct o. Qed.

Lemma updateOne_elem r d ds : d ∈ ds → _id d = _id r → r ∈ updateOne r ds.
Proof.
  induction ds as [|x ds IH]; intros Hd Hid; [by apply elem_of_nil in Hd|].
  simpl. case_decide; [by left|]. right.
  apply elem_of_cons in Hd as [->|Hd]; [done|by apply IH].
Qed.

Lemma find_Some_elem (q : User → Prop) `{∀ u, Decision (q u)} ds i u :
  list_find q ds = Some (i, u) → u ∈ ds ∧ q u.
Proof.
  intros (Hi & Hq & _)%list_find_Some. split; [|done].
  by apply list_elem_of_lookup_2 with i.
Qed.

(** ** What a callback reports and what it stores *)

(** X1. A verify callback ends with [done(null, user)] or with
    [done(error, null)]: never with both an error and a user, never with
    neither. *)
Theorem callback_done_exclusive (o : Op) (w : World) :
  (∃ u, fst (callback o w) = Done None (Some u)) ∨
  (∃ e, fst (callback o w) = Done (Some e) None).
Proof.
  destruct o as [p now|p now]; simpl.
  - destruct (steam_verify_cases p now w)
      as [(e & w' & -> & _)|[(_ & fs & ->)|(i & u & fs & _ & ->)]]; eauto.
  - destruct (discord_verify_cases p now w)
      as [(e & w' & -> & _)|[(_ & _ & fs & ->)|[(_ & c & fs & _ & ->)|(i & u & fs & _ & ->)]]];
      eauto.
Qed.

(** The provider key an operation authenticates. *)
Lemma callback_success_key o w u :
  fst (callback o w) = Done None (Some u) →
  match o with
  | SteamLogin p _ => steamId u = Some (Steam.id p)
  | DiscordLogin p _ => discordId u = Some (Discord.id p)
  end.
Proof.
  destruct o as [p now|p now]; simpl.
  - destruct (steam_verify_cases p now w)
      as [(e & w' & -> & _)|[(_ & fs & ->)|(i & r & fs & Hf & ->)]]; simpl; try done.
    + by intros [= <-].
    + apply find_Some_elem in Hf as [_ Hs]. by intros [= <-].
  - destruct (discord_verify_cases p now w)
      as [(e & w' & -> & _)|[(_ & _ & fs & ->)|[(_ & c & fs & _ & ->)|(i & r & fs & Hf & ->)]]];
      simpl; try done.
    + by intros [= <-].
    + by intros [= <-].
    + apply find_Some_elem in Hf as [_ Hs]. intros [= <-].
      unfold discord_refreshed. simpl.
      by destruct (truthy (steamId r) && truthy (discordId r)).
Qed.

Lemma callback_success_elem o w u :
  fst (callback o w) = Done None (Some u) → u ∈ docs (snd (callback o w)).
Proof.
  intros Hok.
  destruct o as [p now|p now]; simpl in *.
  - destruct (steam_verify_cases p now w)
      as [(e & w' & Heq & _)|[(_ & fs & Heq)|(i & r & fs & Hf & Heq)]];
      rewrite Heq in *; simpl in *; try done; injection Hok as <-.
    + apply elem_of_app. right. by left.
    + apply find_Some_elem in Hf as [Hin _]. by apply updateOne_elem with r.
  - destruct (discord_verify_cases p now w)
      as [(e & w' & Heq & _)|[(_ & _ & fs & Heq)|[(_ & c & fs & Hc & Heq)|(i & r & fs & Hf & Heq)]]];
      rewrite Heq in *; simpl in *; try done; injection Hok as <-.
    + apply elem_of_app. right. by left.
    + apply candidate_Some in Hc as (Hin & _). by apply updateOne_elem with c.
    + apply find_Some_elem in Hf as [Hin _]. apply updateOne_elem with r; [done|].
      unfold discord_refreshed. simpl.
      by destruct (truthy (steamId r) && truthy (discordId r)).
Qed.

(** X2. When a callback reports success, the identity it hands to [done] is a
    document of the collection as the callback leaves it, and it carries
    the external id of the payload under the provider's key. *)
Theorem callback_success_is_stored (o : Op) (w : World) (u : User) :
  fst (callback o w) = Done None (Some u) →
  u ∈ docs (snd (callback o w)) ∧
  match o with
  | SteamLogin p _ => steamId u = Some (Steam.id p)
  | DiscordLogin p _ => discordId u = Some (Discord.id p)
  end.
Proof.
  intros Hok. split; [by apply callback_success_elem|by apply callback_success_key with w].
Qed.

Lemma callback_success_is_stored_witness :
  steam_created Scenario.bob 200 1%nat
    ∈ docs (snd (callback (SteamLogin Scenario.bob 200) Scenario.one_steam)) ∧
  steamId (steam_created Scenario.bob 200 1%nat) = Some (Steam.id Scenario.bob).
Proof.
  apply (callback_success_is_stored (SteamLogin Scenario.bob 200) Scenario.one_steam).
  reflexivity.
Defined.

(** ** Serialising and deserialising the session principal *)

Lemma find_by_id_stored w u :
  wf w → u ∈ docs w →
  snd <$> list_find (λ x, _id x = _id u) (docs w) = Some u.
Proof.
  intros Hw Hu.
  destruct (list_find_elem_of (λ x, _id x = _id u) (docs w) u)
    as [[i r] Hfind]; [done|done|].
  rewrite Hfind. simpl.
  apply find_Some_elem in Hfind as [Hr Hid].
  by rewrite (wf_same_id w r u Hw Hr Hu Hid).
Qed.

(** X3. With [_id]s unique and the lookup answering, deserialising what
    [serializeUser] wrote for a stored identity gives that identity back. *)
Theorem deserialize_serialize_stored (u : User) (w : World) :
  wf w → quiet 1 w → u ∈ docs w →
  deserializeUser (serializeUser u) w = (Done None (Some u), after_trip w).
Proof.
  intros Hw Hq Hu. callback_unfold. rewrite (findOne_ok _ 0 w Hq).
  unfold serializeUser. rewrite option_fmap_compose.
  by rewrite (find_by_id_stored w u Hw Hu).
Qed.

Lemma deserialize_serialize_stored_witness :
  deserializeUser (serializeUser (steam_created Scenario.bob 200 1%nat)) Scenario.two_steam
  = (Done None (Some (steam_created Scenario.bob 200 1%nat)),
     after_trip Scenario.two_steam).
Proof.
  apply (deserialize_serialize_stored _ Scenario.two_steam).
  - apply (bool_decide_unpack _). vm_compute. exact I.
  - apply (bool_decide_unpack _). vm_compute. exact I.
  - apply (bool_decide_unpack _). vm_compute. exact I.
Defined.

(** X4. The session sees what the login stored: after a callback that reported
    success with [u], deserialising the serialised [u] on the store the
    callback left gives [u] again, field for field. *)
Theorem login_then_deserialize (o : Op) (w : World) (u : User) :
  wf w →
  fst (callback o w) = Done None (Some u) →
  quiet 1 (snd (callback o w)) →
  fst (deserializeUser (serializeUser u) (snd (callback o w))) = Done None (Some u).
Proof.
  intros Hw Hok Hq.
  assert (wf (snd (callback o w))) as Hw'.
  { rewrite <-step_callback. by apply step_wf. }
  pose proof (callback_success_elem o w u Hok) as Hin.
  callback_unfold. rewrite (findOne_ok _ 0 _ Hq).
  unfold serializeUser. rewrite option_fmap_compose.
  by rewrite (find_by_id_stored _ u Hw' Hin).
Qed.

Lemma login_then_deserialize_witness :
  fst (deserializeUser
         (serializeUser (discord_linked Scenario.carol (steam_created Scenario.bob 200 1%nat)))
         (snd (callback (DiscordLogin Scenario.carol 300) Scenario.two_steam)))
  = Done None (Some (discord_linked Scenario.carol (steam_created Scenario.bob 200 1%nat))).
Proof.
  apply (login_then_deserialize (DiscordLogin Scenario.carol 300) Scenario.two_steam).
  - apply (bool_decide_unpack _). vm_compute. exact I.
  - reflexivity.
  - apply (bool_decide_unpack _). vm_compute. exact I.
Defined.

(** ** Discord authentication: the other two branches *)

Lemma no_candidate ds : (∀ u, u ∈ ds → ¬ steam_only u) → latest (filter steam_only ds) = None.
Proof.
  intros Hno. destruct (latest _) as [c|] eqn:Hc; [|done].
  apply candidate_Some in Hc as (Hin & Hso & _). by destruct (Hno c).
Qed.

(** X5. A Discord authentication whose id matches no stored [discordId], with
    the database answering and no stored identity that has a [steamId] and
    lacks a [discordId], appends exactly one identity: it has the
    [discordId] of the payload, as name the username, a [#] and the
    discriminator, the avatar and the email of the payload, no [steamId],
    an [_id] that no stored identity has, [createdAt] at the current time,
    and [isFullyAuthenticated] false. *)
Theorem discord_unseen_without_candidate_creates
    (p : Discord.profile) (now : Date) (w : World) :
  wf w → quiet 3 w →
  (∀ u, u ∈ docs w → discordId u ≠ Some (Discord.id p)) →
  (∀ u, u ∈ docs w → ¬ steam_only u) →
  ∃ u, fst (discord_verify p now w) = Done None (Some u) ∧
       docs (snd (discord_verify p now w)) = docs w ++ [u] ∧
       (∀ v, v ∈ docs w → _id v ≠ _id u) ∧
       steamId u = None ∧
       discordId u = Some (Discord.id p) ∧
       discordName u = Some (Discord.username p +:+ "#" +:+ Discord.discriminator p) ∧
       discordAvatar u = Discord.avatar p ∧
       discordEmail u = Discord.email p ∧
       isFullyAuthenticated u = false ∧
       createdAt u = now.
Proof.
  intros [_ Hlt] Hq Hnew Hno. exists (discord_created p now (next_oid w)).
  rewrite discord_verify_fresh; [|done|by apply find_unseen|by apply no_candidate].
  simpl. repeat split; try done.
  intros v Hv Hid. rewrite Forall_forall in Hlt. specialize (Hlt v Hv). simpl in Hlt. lia.
Qed.

Lemma discord_unseen_without_candidate_creates_witness :
  ∃ u, fst (discord_verify Scenario.carol 300 Scenario.one_discord) = Done None (Some u) ∧
       docs (snd (discord_verify Scenario.carol 300 Scenario.one_discord))
       = docs Scenario.one_discord ++ [u] ∧
       (∀ v, v ∈ docs Scenario.one_discord → _id v ≠ _id u) ∧
       steamId u = None ∧
       discordId u = Some "300000000000000001" ∧
       discordName u = Some "carol#0042" ∧
       discordAvatar u = Some "a1b2c3" ∧
       discordEmail u = Some "carol@example.org" ∧
       isFullyAuthenticated u = false ∧
       createdAt u = 300.
Proof.
  apply (discord_unseen_without_candidate_creates Scenario.carol 300 Scenario.one_discord).
  - apply (bool_decide_unpack _). vm_compute. exact I.
  - apply (bool_decide_unpack _). vm_compute. exact I.
  - apply Forall_forall. apply (bool_decide_unpack _). vm_compute. exact I.
  - apply Forall_forall. apply (bool_decide_unpack _). vm_compute. exact I.
Defined.

(** X6. A Discord authentication whose id matches a stored [discordId], with
    the database answering, rewrites exactly one stored identity in place:
    its name is the username, a [#] and the discriminator of the payload,
    its avatar and email are those of the payload, [lastLogin] is the
    current time, both keys are as before, and [isFullyAuthenticated] is
    raised when [steamId] and [discordId] both hold a string that is not
    empty and is left as it was otherwise. *)
Theorem discord_known_updates_in_place
    (p : Discord.profile) (now : Date) (w : World) (u : User) :
  wf w → quiet 2 w →
  u ∈ docs w → discordId u = Some (Discord.id p) →
  ∃ i r r', docs w !! i = Some r ∧ discordId r = Some (Discord.id p) ∧
            fst (discord_verify p now w) = Done None (Some r') ∧
            docs (snd (discord_verify p now w)) = <[i:=r']> (docs w) ∧
            _id r' = _id r ∧ steamId r' = steamId r ∧ discordId r' = discordId r ∧
            discordName r'
            = Some (Discord.username p +:+ "#" +:+ Discord.discriminator p) ∧
            discordAvatar r' = Discord.avatar p ∧
            discordEmail r' = Discord.email p ∧
            lastLogin r' = Some now ∧
            isFullyAuthenticated r'
            = isFullyAuthenticated r ||
              match steamId r, discordId r with
              | Some sid, Some did => bool_decide (sid ≠ "") && bool_decide (did ≠ "")
              | _, _ => false
              end.
Proof.
  intros [Hnd _] Hq Hu Hd.
  destruct (list_find_elem_of (λ x, discordId x = Some (Discord.id p)) (docs w) u)
    as [[i r] Hfind]; [done|done|].
  rewrite (discord_verify_known p now w i r Hq Hfind).
  apply list_find_Some in Hfind as (Hi & Hr & _).
  assert (truthy (steamId r) && truthy (discordId r)
          = match steamId r, discordId r with
            | Some sid, Some did => bool_decide (sid ≠ "") && bool_decide (did ≠ "")
            | _, _ => false
            end) as Hboth.
  { rewrite !truthy_nonempty.
    destruct (steamId r), (discordId r); simpl; try done; apply andb_false_r. }
  exists i, r, (discord_refreshed p now r). simpl.
  rewrite (updateOne_at _ r i); [|done|done|].
  - rewrite <-Hboth. unfold discord_refreshed. simpl.
    destruct (truthy (steamId r) && truthy (discordId r)); simpl;
      repeat split; try done.
    + by rewrite orb_true_r.
    + by rewrite orb_false_r.
  - unfold discord_refreshed. simpl.
    by destruct (truthy (steamId r) && truthy (discordId r)).
Qed.

Lemma discord_known_updates_in_place_witness :
  ∃ i r r', docs (snd (discord_verify Scenario.carol 300 Scenario.one_steam)) !! i = Some r ∧
            discordId r = Some (Discord.id Scenario.carol) ∧
            fst (discord_verify Scenario.carol 500
                   (snd (discord_verify Scenario.carol 300 Scenario.one_steam)))
            = Done None (Some r') ∧
            docs (snd (discord_verify Scenario.carol 500
                         (snd (discord_verify Scenario.carol 300 Scenario.one_steam))))
            = <[i:=r']> (docs (snd (discord_verify Scenario.carol 300 Scenario.one_steam))) ∧
            _id r' = _id r ∧ steamId r' = steamId r ∧ discordId r' = discordId r ∧
            discordName r' = Some "carol#0042" ∧
            discordAvatar r' = Some "a1b2c3" ∧
            discordEmail r' = Some "carol@example.org" ∧
            lastLogin r' = Some 500 ∧
            isFullyAuthenticated r'
            = isFullyAuthenticated r ||
              match steamId r, discordId r with
              | Some sid, Some did => bool_decide (sid ≠ "") && bool_decide (did ≠ "")
              | _, _ => false
              end.
Proof.
  apply (discord_known_updates_in_place Scenario.carol 500
           (snd (discord_verify Scenario.carol 300 Scenario.one_steam))
           (discord_linked Scenario.carol (steam_created Scenario.alice 100 0%nat))).
  - apply (bool_decide_unpack _). vm_compute. exact I.
  - apply (bool_decide_unpack _). vm_compute. exact I.
  - apply (bool_decide_unpack _). vm_compute. exact I.
  - reflexivity.
Defined.

(** ** What a stored identity keeps through any sequence *)

Lemma persists_refl u : persists u u.
Proof. by repeat split. Qed.

Lemma persists_trans u v x : persists u v → persists v x → persists u x.
Proof.
  intros (Hi & Hs & Hc & Hd & Hf) (Hi' & Hs' & Hc' & Hd' & Hf').
  repeat split; try congruence.
  - intros Hset. rewrite Hd' by by rewrite Hd. by apply Hd.
  - intros Hflag. by apply Hf', Hf.
Qed.

Lemma touched_persists u u' : touched u u' → persists u u'.
Proof.
  intros (Hi & Hs & Hc & [[Hd [Hf|(Hf & _)]]|([_ Hnone] & _ & Hf)]);
    repeat split; try done; try congruence.
  by rewrite Hnone.
Qed.

Lemma evolves_persists w w' i u :
  evolves w w' → docs w !! i = Some u →
  ∃ u', docs w' !! i = Some u' ∧ persists u u'.
Proof.
  intros [? Hd Hn|v ? _ _ _ Hd Hn|j v v' ? Hj Ht Hd Hn] Hi; rewrite Hd.
  - exists u. split; [done|apply persists_refl].
  - exists u. split; [by rewrite lookup_app_l_Some with (x := u)|apply persists_refl].
  - destruct (decide (j = i)) as [->|Hne].
    + exists v'. rewrite list_lookup_insert_eq by by eapply lookup_lt_Some.
      rewrite Hi in Hj. injection Hj as ->. split; [done|by apply touched_persists].
    + exists u. rewrite list_lookup_insert_ne by done.
      split; [done|apply persists_refl].
Qed.

Lemma evolves_length w w' :
  evolves w w' →
  (length (docs w) ≤ length (docs w') ≤ S (length (docs w)))%nat.
Proof.
  intros [? Hd Hn|v ? _ _ _ Hd Hn|j v v' ? Hj Ht Hd Hn]; rewrite Hd.
  - lia.
  - rewrite length_app. simpl. lia.
  - rewrite length_insert. lia.
Qed.

(** X7. No sequence of authentications removes or moves a stored identity, or
    changes its [_id], its [steamId] or its [createdAt]; a [discordId]
    that is set stays the same; and [isFullyAuthenticated], once true, is
    never cleared. *)
Theorem stored_identity_persists (ops : list Op) (w : World) (i : nat) (u : User) :
  wf w → docs w !! i = Some u →
  ∃ u', docs (run ops w) !! i = Some u' ∧
        _id u' = _id u ∧ steamId u' = steamId u ∧ createdAt u' = createdAt u ∧
        (is_set (discordId u) = true → discordId u' = discordId u) ∧
        (isFullyAuthenticated u = true → isFullyAuthenticated u' = true).
Proof.
  revert w u. induction ops as [|o ops IH]; intros w u Hw Hi.
  - exists u. split; [done|apply persists_refl].
  - destruct (evolves_persists w (step w o) i u) as (v & Hv & Huv);
      [by apply step_evolves|done|].
    destruct (IH (step w o) v) as (u' & Hu' & Hvu'); [by apply step_wf|done|].
    exists u'. split; [done|]. by apply (persists_trans u v u').
Qed.

Lemma stored_identity_persists_witness :
  ∃ u', docs (run [DiscordLogin Scenario.carol 300; SteamLogin Scenario.alice_moved 400;
                   DiscordLogin Scenario.dave 500] Scenario.two_steam) !! 1%nat = Some u' ∧
        _id u' = _id (steam_created Scenario.bob 200 1%nat) ∧
        steamId u' = steamId (steam_created Scenario.bob 200 1%nat) ∧
        createdAt u' = createdAt (steam_created Scenario.bob 200 1%nat) ∧
        (is_set (discordId (steam_created Scenario.bob 200 1%nat)) = true →
         discordId u' = discordId (steam_created Scenario.bob 200 1%nat)) ∧
        (isFullyAuthenticated (steam_created Scenario.bob 200 1%nat) = true →
         isFullyAuthenticated u' = true).
Proof.
  apply (stored_identity_persists _ Scenario.two_steam 1%nat).
  - apply (bool_decide_unpack _). vm_compute. exact I.
  - reflexivity.
Defined.

(** X8. Every authentication leaves the number of identities as it is or adds
    one: a sequence of [n] operations adds between none and [n]. *)
Theorem run_adds_at_most_one_each (ops : list Op) (w : World) :
  wf w →
  (length (docs w) ≤ length (docs (run ops w)) ≤ length (docs w) + length ops)%nat.
Proof.
  revert w. induction ops as [|o ops IH]; intros w Hw; simpl; [lia|].
  specialize (IH (step w o) (step_wf w o Hw)).
  pose proof (evolves_length w (step w o) (step_evolves w o Hw)). lia.
Qed.

Lemma run_adds_at_most_one_each_witness :
  (length (docs Scenario.one_steam)
   ≤ length (docs (run [SteamLogin Scenario.alice_moved 400%Z; DiscordLogin Scenario.carol 500%Z]
                       Scenario.one_steam))
   ≤ length (docs Scenario.one_steam)
     + length [SteamLogin Scenario.alice_moved 400%Z; DiscordLogin Scenario.carol 500%Z])%nat.
Proof.
  apply (run_adds_at_most_one_each _ Scenario.one_steam).
  apply (bool_decide_unpack _). vm_compute. exact I.
Defined.

(** ** Keys stay unique without the help of an index *)

Lemma unique_keys_app_None ks : unique_keys ks → unique_keys (ks ++ [None]).
Proof.
  intros Hks i j k Hi Hj.
  apply lookup_app_Some in Hi as [Hi|[_ Hi]];
    [|by apply list_lookup_singleton_Some in Hi as [_ ?]].
  apply lookup_app_Some in Hj as [Hj|[_ Hj]];
    [|by apply list_lookup_singleton_Some in Hj as [_ ?]].
  by apply (Hks i j k).
Qed.

Lemma unique_keys_app_fresh ks k :
  unique_keys ks → Some k ∉ ks → unique_keys (ks ++ [Some k]).
Proof.
  intros Hks Hfresh i j k' Hi Hj.
  apply lookup_app_Some in Hi as [Hi|[Hli Hi]];
    apply lookup_app_Some in Hj as [Hj|[Hlj Hj]].
  - by apply (Hks i j k').
  - apply list_lookup_singleton_Some in Hj as [_ [= ->]].
    destruct Hfresh. by apply list_elem_of_lookup_2 with i.
  - apply list_lookup_singleton_Some in Hi as [_ [= ->]].
    destruct Hfresh. by apply list_elem_of_lookup_2 with j.
  - apply list_lookup_singleton_Some in Hi as [Hi _].
    apply list_lookup_singleton_Some in Hj as [Hj _]. lia.
Qed.

Lemma unique_keys_insert_fresh ks i k :
  unique_keys ks → Some k ∉ ks → unique_keys (<[i:=Some k]> ks).
Proof.
  intros Hks Hfresh a b k' Ha Hb.
  apply list_lookup_insert_Some in Ha as [(-> & [= ->] & _)|[Hne Ha]];
    apply list_lookup_insert_Some in Hb as [(-> & Hk & _)|[Hne' Hb]].
  - done.
  - destruct Hfresh. by apply list_elem_of_lookup_2 with b.
  - injection Hk as ->. destruct Hfresh. by apply list_elem_of_lookup_2 with a.
  - by apply (Hks a b k').
Qed.

Lemma fmap_insert_same {A B} (key : A → B) (ds : list A) i r r' :
  ds !! i = Some r → key r' = key r → key <$> <[i:=r']> ds = key <$> ds.
Proof.
  intros Hi Hk. rewrite list_fmap_insert, Hk.
  apply list_insert_id. by rewrite list_lookup_fmap, Hi.
Qed.

Lemma find_None_fresh (key : User → option string) ds k :
  list_find (λ u, key u = Some k) ds = None → Some k ∉ key <$> ds.
Proof.
  intros Hnone (u & Hk & Hu)%list_elem_of_fmap.
  apply list_find_None in Hnone. rewrite Forall_forall in Hnone.
  by destruct (Hnone u Hu).
Qed.

Lemma step_unique_keys w o :
  wf w →
  unique_keys (steamId <$> docs w) ∧ unique_keys (discordId <$> docs w) →
  unique_keys (steamId <$> docs (step w o)) ∧
  unique_keys (discordId <$> docs (step w o)).
Proof.
  intros [Hnd _] [Hs Hd]. rewrite step_callback.
  destruct o as [p now|p now]; simpl.
  - destruct (steam_verify_cases p now w)
      as [(e & w' & -> & He)|[(Hf & fs & ->)|(i & r & fs & Hf & ->)]]; simpl.
    + by rewrite He.
    + rewrite !fmap_app. split.
      * apply unique_keys_app_fresh; [done|]. by apply find_None_fresh.
      * by apply unique_keys_app_None.
    + apply list_find_Some in Hf as (Hi & _ & _).
      rewrite (updateOne_at _ r i) by done.
      by rewrite !(fmap_insert_same _ _ i r).
  - destruct (discord_verify_cases p now w)
      as [(e & w' & -> & He)|[(Hf & _ & fs & ->)|[(Hf & c & fs & Hc & ->)|(i & r & fs & Hf & ->)]]];
      simpl.
    + by rewrite He.
    + rewrite !fmap_app. split.
      * by apply unique_keys_app_None.
      * apply unique_keys_app_fresh; [done|]. by apply find_None_fresh.
    + apply candidate_Some in Hc as (Hin & _ & _).
      apply list_elem_of_lookup in Hin as [i Hi].
      rewrite (updateOne_at _ c i) by done. split.
      * by rewrite (fmap_insert_same _ _ i c).
      * rewrite list_fmap_insert. simpl.
        apply unique_keys_insert_fresh; [done|]. by apply find_None_fresh.
    + apply list_find_Some in Hf as (Hi & _ & _).
      assert (_id (discord_refreshed p now r) = _id r ∧
              steamId (discord_refreshed p now r) = steamId r ∧
              discordId (discord_refreshed p now r) = discordId r) as (Hid & Hsr & Hdr).
      { unfold discord_refreshed. simpl.
        by destruct (truthy (steamId r) && truthy (discordId r)). }
      rewrite (updateOne_at _ r i) by done.
      by rewrite !(fmap_insert_same _ _ i r).
Qed.

(** X9. After any sequence of authentications from the empty store, whatever
    round trips fail on the way, no two stored identities have the same
    [steamId] and no two have the same [discordId]: the callbacks keep the
    keys unique by themselves. *)
Theorem keys_stay_unique (ops : list Op) (fs : list (option Error)) :
  unique_keys (steamId <$> docs (run ops (init fs))) ∧
  unique_keys (discordId <$> docs (run ops (init fs))).
Proof.
  assert (∀ w, wf w →
            unique_keys (steamId <$> docs w) ∧ unique_keys (discordId <$> docs w) →
            unique_keys (steamId <$> docs (run ops w)) ∧
            unique_keys (discordId <$> docs (run ops w))) as Hrun.
  { induction ops as [|o ops IH]; intros w Hw Hu; [done|].
    apply IH; [by apply step_wf|by apply step_unique_keys]. }
  apply Hrun; [apply init_wf|]. by split; intros i j k Hi.
Qed.

(** ** Logging in again, and the order of the two providers *)

(** X10. Once a login has succeeded, the next login of the same provider
    with the same external id (whatever the rest of the payload), with the
    database answering, succeeds and adds no identity. *)
Theorem relogin_adds_no_identity (o o' : Op) (w : World) (u : User) :
  same_account o o' →
  fst (callback o w) = Done None (Some u) →
  quiet 2 (snd (callback o w)) →
  ∃ r, fst (callback o' (snd (callback o w))) = Done None (Some r) ∧
       length (docs (snd (callback o' (snd (callback o w)))))
       = length (docs (snd (callback o w))).
Proof.
  intros Hsame Hok Hq.
  pose proof (callback_success_elem o w u Hok) as Hin.
  pose proof (callback_success_key o w u Hok) as Hkey.
  destruct o as [p t|p t], o' as [p' t'|p' t']; simpl in Hsame; try done.
  - destruct (list_find_elem_of (λ x, steamId x = Some (Steam.id p'))
                (docs (snd (callback (SteamLogin p t) w))) u)
      as [[i r] Hfind]; [done|congruence|].
    simpl in *. rewrite (steam_verify_known p' t' _ i r Hq Hfind). simpl.
    eexists. split; [done|]. apply updateOne_length.
  - destruct (list_find_elem_of (λ x, discordId x = Some (Discord.id p'))
                (docs (snd (callback (DiscordLogin p t) w))) u)
      as [[i r] Hfind]; [done|congruence|].
    simpl in *. rewrite (discord_verify_known p' t' _ i r Hq Hfind). simpl.
    eexists. split; [done|]. apply updateOne_length.
Qed.

Lemma relogin_adds_no_identity_witness :
  ∃ r, fst (callback (SteamLogin Scenario.alice_moved 400)
              (snd (callback (SteamLogin Scenario.alice 100) (init []))))
       = Done None (Some r) ∧
       length (docs (snd (callback (SteamLogin Scenario.alice_moved 400)
                            (snd (callback (SteamLogin Scenario.alice 100) (init []))))))
       = length (docs (snd (callback (SteamLogin Scenario.alice 100) (init [])))).
Proof.
  apply (relogin_adds_no_identity (SteamLogin Scenario.alice 100)
           (SteamLogin Scenario.alice_moved 400) (init [])
           (steam_created Scenario.alice 100 0%nat)).
  - reflexivity.
  - reflexivity.
  - apply (bool_decide_unpack _). vm_compute. exact I.
Defined.

(** X11. Steam first, Discord second, from the empty store with the database
    answering: whatever the two payloads, the store ends with one identity
    that carries both keys and is fully authenticated. *)
Theorem steam_then_discord_links (s : Steam.profile) (d : Discord.profile) (t1 t2 : Date) :
  ∃ u, docs (run [SteamLogin s t1; DiscordLogin d t2] (init [])) = [u] ∧
       steamId u = Some (Steam.id s) ∧
       discordId u = Some (Discord.id d) ∧
       isFullyAuthenticated u = true ∧
       createdAt u = t1.
Proof.
  exists (discord_linked d (steam_created s t1 0%nat)).
  by repeat split.
Qed.

(** X12. Discord first, Steam second: the store ends with two identities, one
    with only the [discordId] and one with only the [steamId], neither of
    them fully authenticated. *)
Theorem discord_then_steam_stays_apart (s : Steam.profile) (d : Discord.profile) (t1 t2 : Date) :
  ∃ a b, docs (run [DiscordLogin d t1; SteamLogin s t2] (init [])) = [a; b] ∧
         steamId a = None ∧ discordId a = Some (Discord.id d) ∧
         steamId b = Some (Steam.id s) ∧ discordId b = None ∧
         isFullyAuthenticated a = false ∧ isFullyAuthenticated b = false.
Proof.
  exists (discord_created d t1 0%nat), (steam_created s t2 1%nat).
  by repeat split.
Qed.

(** ** The [/api/servers] route *)

Lemma not_quiet_head w : ¬ quiet 1 w → ∃ e, head (faults w) = Some (Some e).
Proof.
  unfold quiet. destruct (faults w) as [|[e|] fs]; simpl; intros Hnq.
  - destruct Hnq. apply Forall_nil_2.
  - by exists e.
  - destruct Hnq. rewrite take_0. by apply Forall_singleton.
Qed.

(** X13. [GET /api/servers] answers with the active servers, in collection
    order, when the lookup answers, and with the empty list when it
    rejects: the body never holds an inactive server, and a failed lookup
    reads exactly like a collection without active servers. *)
Theorem api_servers_degrades_to_empty {S} (isActive : S → bool) (servers : list S) (w : World) :
  fst (api_servers isActive servers w)
  = (if decide (quiet 1 w) then filter (λ s, isActive s = true) servers else []) ∧
  Forall (λ s, isActive s = true) (fst (api_servers isActive servers w)) ∧
  (¬ quiet 1 w →
   fst (api_servers isActive servers w)
   = fst (api_servers isActive [] (mkWorld (docs w) (next_oid w) []))).
Proof.
  assert (fst (api_servers isActive servers w)
          = if decide (quiet 1 w) then filter (λ s, isActive s = true) servers else [])
    as Heq.
  { unfold api_servers, ServerStatus_find_active, try_catch, mbind, Async_bind.
    case_decide as Hq.
    - by rewrite (round_trip_ok 0 w Hq).
    - destruct (not_quiet_head w Hq) as [e He]. by rewrite (round_trip_throw e w He). }
  split; [done|]. rewrite Heq. split.
  - case_decide; [|done]. apply Forall_forall. by intros s [? _]%list_elem_of_filter.
  - intros Hnq. by rewrite decide_False.
Qed.

Lemma api_servers_degrades_to_empty_witness :
  fst (api_servers id [true; false] (init [Some Scenario.outage]))
  = (if decide (quiet 1 (init [Some Scenario.outage]))
     then filter (λ s, id s = true) [true; false] else []) ∧
  Forall (λ s, id s = true)
         (fst (api_servers id [true; false] (init [Some Scenario.outage]))) ∧
  (¬ quiet 1 (init [Some Scenario.outage]) →
   fst (api_servers id [true; false] (init [Some Scenario.outage]))
   = fst (api_servers id []
            (mkWorld (docs (init [Some Scenario.outage]))
                     (next_oid (init [Some Scenario.outage])) []))).
Proof.
  apply (api_servers_degrades_to_empty id [true; false] (init [Some Scenario.outage])).
Defined.

(** ** The stack as registered *)

(** X14. The session and passport middleware are registered after the ['*']
    handler: a request that the third-party middleware lets through to the
    routes never reaches them.  Whether or not
    [initializeSession] has run, whatever id the session holds and whatever
    the store holds, [GET /api/user] finds no [req.user] and answers 401,
    and every other request gets the answer it gets without sessions. *)
Theorem session_layers_are_unreachable
    (session_initialized : bool) (t : Target) (su : option ObjectId) (w : World) :
  dispatch (stack session_initialized) t su None w
  = match t with
    | GetHealth => Health200
    | GetRoot => Root200
    | GetApiUser => UserReply (Status401 "Not authenticated")
    | GetApiServers => Servers200
    | Other => NotFound404
    end.
Proof. by destruct session_initialized, t. Qed.

(** ** What a login refreshes and what it leaves alone *)

(** X15. Whatever branch it takes, a login that reports success hands back an
    identity with the profile of the payload.  Steam: the display name, and
    as avatar the value of the first photo when there is one and it is not
    empty, no avatar otherwise (so never the empty string).  Discord: as
    name the username, a [#] and the discriminator, and the avatar and the
    email. *)
Theorem login_refreshes_profile (o : Op) (w : World) (u : User) :
  fst (callback o w) = Done None (Some u) →
  match o with
  | SteamLogin p _ =>
      steamName u = Some (Steam.displayName p) ∧
      steamAvatar u = match Steam.photos p with
                      | [] => None
                      | v :: _ => if decide (v = "") then None else Some v
                      end ∧
      steamAvatar u ≠ Some ""
  | DiscordLogin p _ =>
      discordName u = Some (Discord.username p +:+ "#" +:+ Discord.discriminator p) ∧
      discordAvatar u = Discord.avatar p ∧
      discordEmail u = Discord.email p
  end.
Proof.
  destruct o as [p now|p now]; simpl.
  - assert (first_photo (Steam.photos p) ≠ Some "") as Hne.
    { rewrite first_photo_head. destruct (Steam.photos p) as [|v ph]; [done|].
      case_decide; congruence. }
    rewrite <-first_photo_head.
    destruct (steam_verify_cases p now w)
      as [(e & w' & -> & _)|[(_ & fs & ->)|(i & r & fs & _ & ->)]];
      simpl; try done; by intros [= <-].
  - destruct (discord_verify_cases p now w)
      as [(e & w' & -> & _)|[(_ & _ & fs & ->)|[(_ & c & fs & _ & ->)|(i & r & fs & _ & ->)]]];
      simpl; try done; intros [= <-]; try done.
    by destruct (discord_refreshed_fields p now r) as (? & ? & ? & _).
Qed.

Lemma login_refreshes_profile_witness :
  steamName (steam_refreshed Scenario.alice_moved 400 (steam_created Scenario.alice 100 0%nat))
  = Some "alice2" ∧
  steamAvatar (steam_refreshed Scenario.alice_moved 400 (steam_created Scenario.alice 100 0%nat))
  = Some "https://avatars.example/alice2.jpg" ∧
  steamAvatar (steam_refreshed Scenario.alice_moved 400 (steam_created Scenario.alice 100 0%nat))
  ≠ Some "".
Proof.
  apply (login_refreshes_profile (SteamLogin Scenario.alice_moved 400) Scenario.one_steam).
  reflexivity.
Defined.

Lemma lookup_updateOne w i u r j r' :
  wf w → docs w !! j = Some r → docs w !! i = Some u → _id r' = _id r →
  updateOne r' (docs w) !! i = Some (if decide (j = i) then r' else u).
Proof.
  intros [Hnd _] Hj Hi Hid. rewrite (updateOne_at _ r j) by done.
  case_decide as Hji.
  - subst. apply list_lookup_insert_eq. by eapply lookup_lt_Some.
  - by rewrite list_lookup_insert_ne.
Qed.

(** X16. A Steam login leaves, in every stored identity, the Discord key and
    profile fields, [isFullyAuthenticated], the Steam profile URL and the
    Steam key as they were, whatever branch it takes and whether or not it
    fails. *)
Theorem steam_login_leaves_discord_fields
    (p : Steam.profile) (now : Date) (w : World) (i : nat) (u : User) :
  wf w → docs w !! i = Some u →
  ∃ u', docs (snd (steam_verify p now w)) !! i = Some u' ∧
        discordId u' = discordId u ∧ discordName u' = discordName u ∧
        discordAvatar u' = discordAvatar u ∧ discordEmail u' = discordEmail u ∧
        isFullyAuthenticated u' = isFullyAuthenticated u ∧
        steamId u' = steamId u ∧ steamProfileUrl u' = steamProfileUrl u.
Proof.
  intros Hw Hi.
  destruct (steam_verify_cases p now w)
    as [(e & w' & -> & He)|[(_ & fs & ->)|(j & r & fs & Hf & ->)]]; simpl.
  - rewrite He. by exists u.
  - exists u. by rewrite lookup_app_l_Some with (x := u).
  - apply list_find_Some in Hf as (Hj & _ & _).
    rewrite (lookup_updateOne w i u r j _ Hw Hj Hi) by done.
    case_decide as Hji; [|by exists u].
    subst. rewrite Hi in Hj. injection Hj as <-. by eexists.
Qed.

Lemma steam_login_leaves_discord_fields_witness :
  ∃ u', docs (snd (steam_verify Scenario.alice_moved 400 Scenario.one_steam)) !! 0%nat
        = Some u' ∧
        discordId u' = discordId (steam_created Scenario.alice 100 0%nat) ∧
        discordName u' = discordName (steam_created Scenario.alice 100 0%nat) ∧
        discordAvatar u' = discordAvatar (steam_created Scenario.alice 100 0%nat) ∧
        discordEmail u' = discordEmail (steam_created Scenario.alice 100 0%nat) ∧
        isFullyAuthenticated u'
        = isFullyAuthenticated (steam_created Scenario.alice 100 0%nat) ∧
        steamId u' = steamId (steam_created Scenario.alice 100 0%nat) ∧
        steamProfileUrl u' = steamProfileUrl (steam_created Scenario.alice 100 0%nat).
Proof.
  apply (steam_login_leaves_discord_fields Scenario.alice_moved 400 Scenario.one_steam 0%nat).
  - apply (bool_decide_unpack _). vm_compute. exact I.
  - reflexivity.
Defined.

(** X17. A Discord login leaves the Steam key and the three Steam profile
    fields of every stored identity as they were, whatever branch it takes
    and whether or not it fails. *)
Theorem discord_login_leaves_steam_fields
    (p : Discord.profile) (now : Date) (w : World) (i : nat) (u : User) :
  wf w → docs w !! i = Some u →
  ∃ u', docs (snd (discord_verify p now w)) !! i = Some u' ∧
        steamId u' = steamId u ∧ steamName u' = steamName u ∧
        steamAvatar u' = steamAvatar u ∧ steamProfileUrl u' = steamProfileUrl u.
Proof.
  intros Hw Hi.
  destruct (discord_verify_cases p now w)
    as [(e & w' & -> & He)|[(_ & _ & fs & ->)|[(_ & c & fs & Hc & ->)|(j & r & fs & Hf & ->)]]];
    simpl.
  - rewrite He. by exists u.
  - exists u. by rewrite lookup_app_l_Some with (x := u).
  - apply candidate_Some in Hc as (Hin & _ & _).
    apply list_elem_of_lookup in Hin as [j Hj].
    rewrite (lookup_updateOne w i u c j _ Hw Hj Hi) by done.
    case_decide as Hji; [|by exists u].
    subst. rewrite Hi in Hj. injection Hj as <-. by eexists.
  - apply list_find_Some in Hf as (Hj & _ & _).
    rewrite (lookup_updateOne w i u r j _ Hw Hj Hi).
    + case_decide as Hji; [|by exists u].
      subst. rewrite Hi in Hj. injection Hj as <-. eexists. split; [done|].
      unfold discord_refreshed. simpl.
      by destruct (truthy (steamId u) && truthy (discordId u)).
    + unfold discord_refreshed. simpl.
      by destruct (truthy (steamId r) && truthy (discordId r)).
Qed.

Lemma discord_login_leaves_steam_fields_witness :
  ∃ u', docs (snd (discord_verify Scenario.carol 300 Scenario.one_steam)) !! 0%nat
        = Some u' ∧
        steamId u' = steamId (steam_created Scenario.alice 100 0%nat) ∧
        steamName u' = steamName (steam_created Scenario.alice 100 0%nat) ∧
        steamAvatar u' = steamAvatar (steam_created Scenario.alice 100 0%nat) ∧
        steamProfileUrl u' = steamProfileUrl (steam_created Scenario.alice 100 0%nat).
Proof.
  apply (discord_login_leaves_steam_fields Scenario.carol 300 Scenario.one_steam 0%nat).
  - apply (bool_decide_unpack _). vm_compute. exact I.
  - reflexivity.
Defined.

Lemma step_steamProfileUrl w o i u :
  wf w → docs w !! i = Some u →
  ∃ v, docs (step w o) !! i = Some v ∧ steamProfileUrl v = steamProfileUrl u.
Proof.
  intros Hw Hi. rewrite step_callback.
  assert (∀ j r r', docs w !! j = Some r → _id r' = _id r →
                    steamProfileUrl r' = steamProfileUrl r →
                    ∃ v, updateOne r' (docs w) !! i = Some v ∧
                         steamProfileUrl v = steamProfileUrl u) as Hupd.
  { intros j r r' Hj Hid Hurl.
    rewrite (lookup_updateOne w i u r j r' Hw Hj Hi Hid).
    case_decide as Hji; [|by exists u].
    subst. rewrite Hi in Hj. injection Hj as <-. by exists r'. }
  destruct o as [p now|p now]; simpl.
  - destruct (steam_verify_cases p now w)
      as [(e & w' & -> & He)|[(_ & fs & ->)|(j & r & fs & Hf & ->)]]; simpl.
    + rewrite He. by exists u.
    + exists u. by rewrite lookup_app_l_Some with (x := u).
    + apply list_find_Some in Hf as (Hj & _ & _). by apply (Hupd j r).
  - destruct (discord_verify_cases p now w)
      as [(e & w' & -> & He)|[(_ & _ & fs & ->)|[(_ & c & fs & Hc & ->)|(j & r & fs & Hf & ->)]]];
      simpl.
    + rewrite He. by exists u.
    + exists u. by rewrite lookup_app_l_Some with (x := u).
    + apply candidate_Some in Hc as (Hin & _ & _).
      apply list_elem_of_lookup in Hin as [j Hj]. by apply (Hupd j c).
    + apply list_find_Some in Hf as (Hj & _ & _).
      apply (Hupd j r); [done|..]; unfold discord_refreshed; simpl;
        by destruct (truthy (steamId r) && truthy (discordId r)).
Qed.

(** X18. Through any sequence of authentications the Steam profile URL of a
    stored identity is what it was: it is written when the identity is
    created and by nothing else. *)
Theorem steam_profile_url_is_write_once (ops : list Op) (w : World) (i : nat) (u : User) :
  wf w → docs w !! i = Some u →
  ∃ u', docs (run ops w) !! i = Some u' ∧ steamProfileUrl u' = steamProfileUrl u.
Proof.
  revert w u. induction ops as [|o ops IH]; intros w u Hw Hi; [by exists u|].
  destruct (step_steamProfileUrl w o i u Hw Hi) as (v & Hv & Huv).
  destruct (IH (step w o) v (step_wf w o Hw) Hv) as (u' & Hu' & Hvu').
  exists u'. split; [done|congruence].
Qed.

Lemma steam_profile_url_is_write_once_witness :
  ∃ u', docs (run [SteamLogin Scenario.alice_moved 400; DiscordLogin Scenario.carol 500]
                  Scenario.one_steam) !! 0%nat = Some u' ∧
        steamProfileUrl u' = steamProfileUrl (steam_created Scenario.alice 100 0%nat).
Proof.
  apply (steam_profile_url_is_write_once _ Scenario.one_steam 0%nat).
  - apply (bool_decide_unpack _). vm_compute. exact I.
  - reflexivity.
Defined.

(** ** A rejected session lookup *)

(** X19. When the lookup of [deserializeUser] rejects with [e], the callback
    ends with [done(e, null)], whether or not the identity is stored, and
    the collection is left as it was. *)
Theorem deserialize_reports_rejection (i : ObjectId) (e : Error) (w : World) :
  head (faults w) = Some (Some e) →
  fst (deserializeUser i w) = Done (Some e) None ∧
  docs (snd (deserializeUser i w)) = docs w.
Proof.
  intros Hf. callback_unfold. by rewrite (findOne_throw _ e w Hf).
Qed.

Lemma deserialize_reports_rejection_witness :
  fst (deserializeUser 0%nat
         (mkWorld (docs Scenario.one_steam) (next_oid Scenario.one_steam)
                  [Some Scenario.outage]))
  = Done (Some Scenario.outage) None ∧
  docs (snd (deserializeUser 0%nat
               (mkWorld (docs Scenario.one_steam) (next_oid Scenario.one_steam)
                        [Some Scenario.outage])))
  = docs (mkWorld (docs Scenario.one_steam) (next_oid Scenario.one_steam)
                  [Some Scenario.outage]).
Proof.
  apply (deserialize_reports_rejection 0%nat Scenario.outage
           (mkWorld (docs Scenario.one_steam) (next_oid Scenario.one_steam)
                    [Some Scenario.outage])).
  reflexivity.
Defined.
